(** * fastmail-tui: secret generator, mailbox ordering and search ranking

    A shallow embedding of
      - [fastmail_tui/services/password_generator.py]
      - [fastmail_tui/models/mailbox.py] ([sort_mailboxes])
      - [fastmail_tui/models/email.py] (the sender properties of [Email])
      - [fastmail_tui/ui/widgets/search_modal.py] (the search scorer)
    together with the properties the specification states about them. *)

From Stdlib Require Import List ZArith NArith Bool Lia String Ascii.
From Stdlib Require Import Permutation Sorted.
Import ListNotations.

Set Implicit Arguments.

(** ** Python strings

    A Python [str] is a sequence of Unicode code points.  Code points are
    kept as [N]; the operations below are the built-in ones the sources
    use. *)

Module PyStr.

Definition char := N.
Definition str := list char.

(** A literal of the source, written as a Rocq string. *)
Definition lit (s : string) : str :=
  List.map N_of_ascii (list_ascii_of_string s).

(** [a == b] *)
Fixpoint eqb (a b : str) : bool :=
  match a, b with
  | [], [] => true
  | x :: a', y :: b' => N.eqb x y && eqb a' b'
  | _, _ => false
  end.

(** [s.startswith(q)] *)
Fixpoint startswith (s q : str) : bool :=
  match q, s with
  | [], _ => true
  | _ :: _, [] => false
  | x :: q', y :: s' => N.eqb x y && startswith s' q'
  end.

(** [q in s]: [q] occurs in [s] as a contiguous run. *)
Fixpoint contains (q s : str) : bool :=
  startswith s q ||
  match s with
  | [] => false
  | _ :: s' => contains q s'
  end.

(** [a < b]: code point by code point, a proper prefix being smaller. *)
Fixpoint ltb (a b : str) : bool :=
  match a, b with
  | _, [] => false
  | [], _ :: _ => true
  | x :: a', y :: b' =>
      if N.ltb x y then true
      else if N.ltb y x then false
      else ltb a' b'
  end.

(** [sep.join(parts)] *)
Fixpoint join (sep : str) (parts : list str) : str :=
  match parts with
  | [] => []
  | [p] => p
  | p :: rest => p ++ sep ++ join sep rest
  end.

(** The scan of [s.split(sep)] for a non-empty [sep]: [cur] is the
    segment being read, in reverse; [skip] counts the characters of a
    separator just matched that are still to be passed over. *)
Fixpoint split_scan (sep s cur : str) (skip : nat) : list str :=
  match s with
  | [] => [rev cur]
  | c :: s' =>
      match skip with
      | S k => split_scan sep s' cur k
      | O =>
          if startswith s sep
          then rev cur :: split_scan sep s' [] (List.length sep - 1)
          else split_scan sep s' (c :: cur) 0
      end
  end.

(** [s.split(sep)]: the segments between the occurrences of [sep], found
    from the left and not overlapping.  An empty separator raises
    [ValueError], which is [None] here. *)
Definition split (s sep : str) : option (list str) :=
  match sep with
  | [] => None
  | _ :: _ => Some (split_scan sep s [] 0)
  end.

(** [str(n)] for a non-negative integer: its decimal digits. *)
Fixpoint of_uint (d : Decimal.uint) : str :=
  match d with
  | Decimal.Nil => []
  | Decimal.D0 d' => 48%N :: of_uint d'
  | Decimal.D1 d' => 49%N :: of_uint d'
  | Decimal.D2 d' => 50%N :: of_uint d'
  | Decimal.D3 d' => 51%N :: of_uint d'
  | Decimal.D4 d' => 52%N :: of_uint d'
  | Decimal.D5 d' => 53%N :: of_uint d'
  | Decimal.D6 d' => 54%N :: of_uint d'
  | Decimal.D7 d' => 55%N :: of_uint d'
  | Decimal.D8 d' => 56%N :: of_uint d'
  | Decimal.D9 d' => 57%N :: of_uint d'
  end.

Definition of_nat (n : nat) : str := of_uint (Nat.to_uint n).

(** [str(z)] for an integer of either sign. *)
Definition of_Z (z : Z) : str :=
  match z with
  | Zneg p => 45%N :: of_nat (Pos.to_nat p)
  | _ => of_nat (Z.to_nat z)
  end.

(** Constants of the [string] module. *)
Definition ascii_lowercase : str := lit "abcdefghijklmnopqrstuvwxyz".
Definition ascii_uppercase : str := lit "ABCDEFGHIJKLMNOPQRSTUVWXYZ".
Definition ascii_letters : str := ascii_lowercase ++ ascii_uppercase.
Definition digits : str := lit "0123456789".
(** [string.punctuation]: the 32 ASCII punctuation characters, code
    points 33-47, 58-64, 91-96 and 123-126. *)
Definition punctuation : str :=
  [33; 34; 35; 36; 37; 38; 39; 40; 41; 42; 43; 44; 45; 46; 47;
   58; 59; 60; 61; 62; 63; 64;
   91; 92; 93; 94; 95; 96;
   123; 124; 125; 126]%N.

End PyStr.

Import PyStr.

(** ** The Unicode tables

    [str.lower], [str.strip], [str.islower], [str.isupper] and
    [str.isdigit] are built-ins driven by the Unicode character database.
    The development is parametric in them: every statement holds for
    whatever tables the interpreter ships. *)

Class Unicode : Type := {
  lower : str -> str;
  strip : str -> str;
  islower : char -> bool;
  isupper : char -> bool;
  isdigit : char -> bool
}.

(** The tables restricted to ASCII, on which they agree with Python's for
    every string of ASCII characters; used to run the model on concrete
    inputs. *)
Module AsciiTables.

Definition in_range (lo hi c : N) : bool := (N.leb lo c && N.leb c hi)%bool.

Definition lower_char (c : char) : char :=
  if in_range 65 90 c then (c + 32)%N else c.

Definition is_space (c : char) : bool :=
  in_range 9 13 c || in_range 28 32 c.

Fixpoint lstrip (s : str) : str :=
  match s with
  | c :: s' => if is_space c then lstrip s' else s
  | [] => []
  end.

Definition tables : Unicode := {|
  lower := List.map lower_char;
  strip := fun s => List.rev (lstrip (List.rev (lstrip s)));
  islower := in_range 97 122;
  isupper := in_range 65 90;
  isdigit := in_range 48 57
|}.

End AsciiTables.

(** ** Python's stable sort

    [sorted(xs, key=f)] and [xs.sort(key=f)] order by [f] using only [<]
    on the keys, and keep elements whose keys are not ordered by [<] in
    their input order.  Insertion from the right end is the simplest sort
    with this behaviour; [sorted_by_key_unique] below shows that every
    sort which orders the keys and is stable returns the same list. *)

Section PySort.

Variables (A K : Type) (key : A -> K) (lt : K -> K -> bool).

Fixpoint insert_stable (x : A) (l : list A) : list A :=
  match l with
  | [] => [x]
  | y :: l' =>
      if lt (key y) (key x) then y :: insert_stable x l' else x :: l
  end.

Definition sorted_by_key (l : list A) : list A :=
  List.fold_right insert_stable [] l.

End PySort.

(** ** The [secrets] module

    The operating system's entropy source is an arbitrary infinite sequence
    of draws [tape], read at position [pos].  A computation takes the
    source, and returns a value or raises, together with the source as it
    leaves it.  Quantifying over [tape] covers every outcome the real
    source can give. *)

Module Secrets.

Record rng : Type := { tape : nat -> nat; pos : nat }.

Inductive exn : Type := ValueError | IndexError.

Inductive result (A : Type) : Type :=
| Ok (a : A)
| Raise (e : exn).
Arguments Ok {A} a.
Arguments Raise {A} e.

Definition M (A : Type) : Type := rng -> result A * rng.

Definition ret {A} (a : A) : M A := fun g => (Ok a, g).

Definition raise {A} (e : exn) : M A := fun g => (Raise e, g).

Definition bind {A B} (m : M A) (k : A -> M B) : M B :=
  fun g =>
    match m g with
    | (Ok a, g') => k a g'
    | (Raise e, g') => (Raise e, g')
    end.

(** [secrets.randbelow(n)]: an integer in [[0, n)]; [n] must be positive. *)
Definition randbelow (n : nat) : M nat :=
  fun g =>
    match n with
    | O => (Raise ValueError, g)
    | S _ => (Ok (Nat.modulo (tape g (pos g)) n),
              {| tape := tape g; pos := S (pos g) |})
    end.

(** [secrets.choice(seq)]: [seq[randbelow(len(seq))]]; an empty sequence
    raises [IndexError]. *)
Definition choice {A} (seq : list A) : M A :=
  match seq with
  | [] => raise IndexError
  | d :: _ => bind (randbelow (List.length seq)) (fun i => ret (List.nth i seq d))
  end.

(** [[m for _ in range(n)]] *)
Fixpoint replicateM {A} (n : nat) (m : M A) : M (list A) :=
  match n with
  | O => ret []
  | S n' => bind m (fun a => bind (replicateM n' m) (fun l => ret (a :: l)))
  end.

(** [range(n)] has [n] elements for a positive [n] and none otherwise. *)
Definition range_len (n : Z) : nat := Z.to_nat n.

End Secrets.

Declare Scope py_scope.
Notation "x <- m ;; k" := (Secrets.bind m (fun x => k))
  (at level 61, m at next level, right associativity) : py_scope.

Local Open Scope py_scope.

(** ** [services/password_generator.py] *)

Module PasswordGenerator.

Import Secrets.

Record PasswordOptions : Type := {
  length : Z;
  include_uppercase : bool;
  include_lowercase : bool;
  include_digits : bool;
  include_symbols : bool;
  exclude_ambiguous : bool
}.

(** [PasswordOptions()] *)
Definition default_options : PasswordOptions := {|
  length := 24;
  include_uppercase := true;
  include_lowercase := true;
  include_digits := true;
  include_symbols := true;
  exclude_ambiguous := true
|}.

Definition AMBIGUOUS_CHARS : str := lit "0O1lI|".

Definition symbol_chars : str := lit "!@#$%^&*()-_=+[]{}|;:,.<>?".

(** A string seen as the sequence of its one-character strings, which is
    what iterating over it or indexing it gives. *)
Definition chars_of (s : str) : list str := List.map (fun c => [c]) s.

(** Lines 37-46: the character set of the enabled classes. *)
Definition class_chars (options : PasswordOptions) : str :=
  let chars := [] in
  let chars := if include_lowercase options then chars ++ ascii_lowercase else chars in
  let chars := if include_uppercase options then chars ++ ascii_uppercase else chars in
  let chars := if include_digits options then chars ++ digits else chars in
  let chars := if include_symbols options then chars ++ symbol_chars else chars in
  chars.

(** Lines 49-50: the ambiguous characters are dropped on request. *)
Definition remove_ambiguous (options : PasswordOptions) (chars : str) : str :=
  if exclude_ambiguous options
  then join [] (List.filter (fun c => negb (contains c AMBIGUOUS_CHARS)) (chars_of chars))
  else chars.

Definition fallback_chars : str := ascii_letters ++ digits.

(** Lines 52-53: [if not chars] *)
Definition or_fallback (chars : str) : str :=
  match chars with
  | [] => fallback_chars
  | _ :: _ => chars
  end.

(** The set the password is drawn from, line 56. *)
Definition effective_chars (options : PasswordOptions) : str :=
  or_fallback (remove_ambiguous options (class_chars options)).

(** Whether line 53 runs. *)
Definition fallback_used (options : PasswordOptions) : bool :=
  match remove_ambiguous options (class_chars options) with
  | [] => true
  | _ :: _ => false
  end.

Definition generate_password (options : option PasswordOptions) : M str :=
  let options :=
    match options with
    | None => default_options
    | Some o => o
    end in
  let chars := effective_chars options in
  picks <- replicateM (range_len (length options)) (choice (chars_of chars)) ;;
  ret (join [] picks).

Definition words : list str :=
  List.map lit [
    "apple"; "banana"; "cherry"; "dragon"; "eagle"; "forest";
    "galaxy"; "harbor"; "island"; "jungle"; "koala"; "lemon";
    "mango"; "nebula"; "ocean"; "planet"; "quartz"; "river";
    "sunset"; "thunder"; "umbrella"; "violet"; "whisper"; "xylophone";
    "yellow"; "zenith"; "anchor"; "bridge"; "castle"; "diamond";
    "emerald"; "falcon"; "garden"; "hunter"; "indigo"; "jasper";
    "kiwi"; "lantern"; "marble"; "ninja"; "orange"; "phoenix";
    "quantum"; "rainbow"; "silver"; "tiger"; "ultra"; "velvet";
    "willow"; "xenon"; "yacht"; "zephyr"; "alpine"; "blazer";
    "cosmic"; "delta"; "echo"; "frost"; "glider"; "horizon"
  ]%string.

Definition generate_memorable_password (num_words : Z) (separator : str) : M str :=
  selected <- replicateM (range_len num_words) (choice words) ;;
  n <- randbelow 100 ;;
  let selected := selected ++ [of_nat n] in
  ret (join separator selected).

(** The dictionary [password_strength] returns, one field per key. *)
Record StrengthReport : Type := {
  score : Z;
  max_score : Z;
  strength : str;
  color : str;
  report_length : Z;
  has_lowercase : bool;
  has_uppercase : bool;
  has_digits : bool;
  has_symbols : bool
}.

Section Strength.

Context {U : Unicode}.

(** Lines 130-141: the rating and its colour. *)
Definition rating (score : Z) : str * str :=
  if (7 <=? score)%Z then (lit "strong", lit "#00FF88")
  else if (5 <=? score)%Z then (lit "good", lit "#00D4FF")
  else if (3 <=? score)%Z then (lit "moderate", lit "#FFB800")
  else (lit "weak", lit "#FF4444").

Definition password_strength (password : str) : StrengthReport :=
  let has_lower := List.existsb islower password in
  let has_upper := List.existsb isupper password in
  let has_digit := List.existsb isdigit password in
  let has_symbol :=
    List.existsb (fun c => contains c punctuation) (chars_of password) in
  let length := Z.of_nat (List.length password) in
  let score := 0%Z in
  let score := if (8 <=? length)%Z then (score + 1)%Z else score in
  let score := if (12 <=? length)%Z then (score + 1)%Z else score in
  let score := if (16 <=? length)%Z then (score + 1)%Z else score in
  let score := if (24 <=? length)%Z then (score + 1)%Z else score in
  let score := if has_lower then (score + 1)%Z else score in
  let score := if has_upper then (score + 1)%Z else score in
  let score := if has_digit then (score + 1)%Z else score in
  let score := if has_symbol then (score + 1)%Z else score in
  let '(strength, color) := rating score in
  {| score := score;
     max_score := 8;
     strength := strength;
     color := color;
     report_length := length;
     has_lowercase := has_lower;
     has_uppercase := has_upper;
     has_digits := has_digit;
     has_symbols := has_symbol |}.

End Strength.

End PasswordGenerator.

(** ** [models/mailbox.py] *)

Module MailboxModel.

Record Mailbox : Type := {
  id : str;
  name : str;
  role : option str;
  parent_id : option str;
  sort_order : Z;
  total_emails : Z;
  unread_emails : Z;
  total_threads : Z;
  unread_threads : Z;
  is_subscribed : bool
}.

(** [self.role is not None] *)
Definition is_system (m : Mailbox) : bool :=
  match role m with
  | Some _ => true
  | None => false
  end.

(** A dictionary literal, as its items in order, and [d.get(k, default)]. *)
Fixpoint dict_get {V : Type} (d : list (str * V)) (k : str) (default : V) : V :=
  match d with
  | [] => default
  | (k', v) :: d' => if eqb k' k then v else dict_get d' k default
  end.

Definition role_order : list (str * Z) :=
  [ (lit "inbox", 0%Z);
    (lit "drafts", 1%Z);
    (lit "sent", 2%Z);
    (lit "archive", 3%Z);
    (lit "spam", 4%Z);
    (lit "junk", 4%Z);
    (lit "trash", 5%Z) ].

(** [d[k]] where the key is present, [None] where [k in d] is false. *)
Fixpoint dict_lookup {V : Type} (d : list (str * V)) (k : str) : option V :=
  match d with
  | [] => None
  | (k', v) :: d' => if eqb k' k then Some v else dict_lookup d' k
  end.

Definition role_names : list (str * str) :=
  [ (lit "inbox", lit "Inbox");
    (lit "sent", lit "Sent");
    (lit "drafts", lit "Drafts");
    (lit "trash", lit "Trash");
    (lit "archive", lit "Archive");
    (lit "spam", lit "Spam");
    (lit "junk", lit "Junk") ].

Definition sort_key_t : Type := Z * Z * str.

(** [<] on the key tuples: the first position where the two differ
    decides. *)
Definition tuple_ltb (x y : sort_key_t) : bool :=
  let '(a1, b1, c1) := x in
  let '(a2, b2, c2) := y in
  if negb (Z.eqb a1 a2) then Z.ltb a1 a2
  else if negb (Z.eqb b1 b2) then Z.ltb b1 b2
  else if negb (eqb c1 c2) then ltb c1 c2
  else false.

Section Sorting.

Context {U : Unicode}.

(** [if m.role:] holds for a role that is neither [None] nor empty. *)
Definition sort_key (m : Mailbox) : sort_key_t :=
  match role m with
  | Some ((_ :: _) as r) =>
      (0%Z, dict_get role_order (lower r) 99%Z, lower (name m))
  | _ => (1%Z, sort_order m, lower (name m))
  end.

Definition sort_mailboxes (mailboxes : list Mailbox) : list Mailbox :=
  sorted_by_key sort_key tuple_ltb mailboxes.

(** [for mailbox in cache.values(): if mailbox.role and
    mailbox.role.lower() == role.lower(): return mailbox], then
    [return None]; the cache values in insertion order. *)
Fixpoint get_mailbox_by_role (cache_values : list Mailbox) (role_name : str)
    : option Mailbox :=
  match cache_values with
  | [] => None
  | mailbox :: rest =>
      match role mailbox with
      | Some ((_ :: _) as r) =>
          if eqb (lower r) (lower role_name) then Some mailbox
          else get_mailbox_by_role rest role_name
      | _ => get_mailbox_by_role rest role_name
      end
  end.

(** [if self.role and self.role.lower() in role_names: return
    role_names[self.role.lower()]], else the name.  The membership test
    and the indexing it guards are one lookup. *)
Definition display_name (m : Mailbox) : str :=
  match role m with
  | Some ((_ :: _) as r) =>
      match dict_lookup role_names (lower r) with
      | Some title => title
      | None => name m
      end
  | _ => name m
  end.

End Sorting.

(** [unread_display] *)
Definition unread_display (m : Mailbox) : str :=
  if (0 <? unread_emails m)%Z then
    if (999 <? unread_emails m)%Z then lit "999+"
    else of_Z (unread_emails m)
  else [].

(** The values a mailbox dictionary holds. *)
Inductive value : Type :=
| VNone
| VStr (s : str)
| VInt (z : Z)
| VBool (b : bool).

Definition of_optional (o : option str) : value :=
  match o with
  | Some s => VStr s
  | None => VNone
  end.

Definition to_dict (m : Mailbox) : list (str * value) :=
  [ (lit "id", VStr (id m));
    (lit "name", VStr (name m));
    (lit "role", of_optional (role m));
    (lit "parent_id", of_optional (parent_id m));
    (lit "sort_order", VInt (sort_order m));
    (lit "total_emails", VInt (total_emails m));
    (lit "unread_emails", VInt (unread_emails m));
    (lit "total_threads", VInt (total_threads m));
    (lit "unread_threads", VInt (unread_threads m));
    (lit "is_subscribed", VBool (is_subscribed m)) ].

(** What [cls(...)] is given: the dataclass stores its arguments as they
    come, whatever their types. *)
Record MailboxArgs : Type := {
  arg_id : value;
  arg_name : value;
  arg_role : value;
  arg_parent_id : value;
  arg_sort_order : value;
  arg_total_emails : value;
  arg_unread_emails : value;
  arg_total_threads : value;
  arg_unread_threads : value;
  arg_is_subscribed : value
}.

(** [from_dict]: [data["id"]] and [data["name"]] raise [KeyError] when the
    key is missing, which is [None] here; the other keys are read with
    [data.get] and a default. *)
Definition from_dict (data : list (str * value)) : option MailboxArgs :=
  match dict_lookup data (lit "id"), dict_lookup data (lit "name") with
  | Some i, Some n =>
      Some {| arg_id := i;
              arg_name := n;
              arg_role := dict_get data (lit "role") VNone;
              arg_parent_id := dict_get data (lit "parent_id") VNone;
              arg_sort_order := dict_get data (lit "sort_order") (VInt 0);
              arg_total_emails := dict_get data (lit "total_emails") (VInt 0);
              arg_unread_emails := dict_get data (lit "unread_emails") (VInt 0);
              arg_total_threads := dict_get data (lit "total_threads") (VInt 0);
              arg_unread_threads := dict_get data (lit "unread_threads") (VInt 0);
              arg_is_subscribed := dict_get data (lit "is_subscribed") (VBool true) |}
  | _, _ => None
  end.

(** The arguments that make the mailbox [m]. *)
Definition args_of (m : Mailbox) : MailboxArgs :=
  {| arg_id := VStr (id m);
     arg_name := VStr (name m);
     arg_role := of_optional (role m);
     arg_parent_id := of_optional (parent_id m);
     arg_sort_order := VInt (sort_order m);
     arg_total_emails := VInt (total_emails m);
     arg_unread_emails := VInt (unread_emails m);
     arg_total_threads := VInt (total_threads m);
     arg_unread_threads := VInt (unread_threads m);
     arg_is_subscribed := VBool (is_subscribed m) |}.

End MailboxModel.

(** ** [models/email.py]: the fields and properties the search reads *)

Module EmailModel.

Record EmailAddress : Type := {
  email : str;
  name : option str
}.

(** [self.name or self.email.split("@")[0]] *)
Definition short_display (a : EmailAddress) : str :=
  match name a with
  | Some ((_ :: _) as n) => n
  | _ =>
      match split (email a) (lit "@") with
      | Some (p :: _) => p
      | _ => []
      end
  end.

Record Email : Type := {
  id : str;
  thread_id : str;
  subject : str;
  preview : str;
  from_addresses : list EmailAddress
}.

Definition from_display (e : Email) : str :=
  match from_addresses e with
  | a :: _ => short_display a
  | [] => lit "Unknown"
  end.

Definition from_email (e : Email) : str :=
  match from_addresses e with
  | a :: _ => email a
  | [] => []
  end.

End EmailModel.

(** ** [ui/widgets/search_modal.py] *)

Module SearchModal.

Import EmailModel.

Section Scoring.

Context {U : Unicode}.

Definition _calculate_score (query : str) (email : Email) : Z :=
  let score := 0%Z in
  let subject_lower := lower (subject email) in
  let score :=
    if contains query subject_lower then
      let score := (score + 100)%Z in
      if startswith subject_lower query then (score + 50)%Z else score
    else score in
  let from_lower := lower (from_display email) in
  let score :=
    if contains query from_lower then
      let score := (score + 80)%Z in
      if startswith from_lower query then (score + 40)%Z else score
    else score in
  let from_email_lower := lower (from_email email) in
  let score :=
    if contains query from_email_lower then (score + 60)%Z else score in
  let preview_lower := lower (preview email) in
  let score :=
    if contains query preview_lower then (score + 30)%Z else score in
  score.

(** Lines 111-115: the matching emails with their scores, in input
    order. *)
Fixpoint scored_matches (query : str) (all_emails : list Email) : list (Z * Email) :=
  match all_emails with
  | [] => []
  | email :: rest =>
      let score := _calculate_score query email in
      if (0 <? score)%Z
      then (score, email) :: scored_matches query rest
      else scored_matches query rest
  end.

(** Lines 111-119 with the bound [50] of line 119 as [limit]:
    [scored.sort(key=lambda x: x[0], reverse=True)] orders by score,
    highest first, and keeps equal scores in input order. *)
Definition rank (query : str) (all_emails : list Email) (limit : nat) : list Email :=
  let scored := scored_matches query all_emails in
  let scored := sorted_by_key fst (fun a b => Z.ltb b a) scored in
  List.map snd (List.firstn limit scored).

(** The value [on_input_changed] leaves in [self._filtered] when the
    input holds [value]. *)
Definition on_input_changed (all_emails : list Email) (value : str) : list Email :=
  let query := lower (strip value) in
  match query with
  | [] => List.firstn 50 all_emails
  | _ :: _ => rank query all_emails 50
  end.

End Scoring.

(** Line 82: the results shown before anything is typed. *)
Definition initial_filtered (emails : list Email) : list Email :=
  List.firstn 50 emails.

(** What an action does: it dismisses the modal with an email or with
    [None], does nothing, or raises. *)
Inductive outcome : Type :=
| Dismiss (selected : option Email)
| NoDismiss
| IndexError.

(** [xs[i]] for a non-negative or negative index. *)
Definition index (xs : list Email) (i : Z) : option Email :=
  if (0 <=? i)%Z then List.nth_error xs (Z.to_nat i)
  else if (- Z.of_nat (List.length xs) <=? i)%Z
       then List.nth_error xs (Z.to_nat (Z.of_nat (List.length xs) + i))
       else None.

(** [action_select], with the cursor row of the table. *)
Definition action_select (filtered : list Email) (cursor_row : option Z) : outcome :=
  match cursor_row with
  | Some row =>
      if ((0 <=? row)%Z && (row <? Z.of_nat (List.length filtered))%Z)%bool then
        match index filtered row with
        | Some email => Dismiss (Some email)
        | None => IndexError
        end
      else Dismiss None
  | None => Dismiss None
  end.

(** The loop of [on_data_table_row_selected]. *)
Fixpoint first_with_id (filtered : list Email) (email_id : str) : outcome :=
  match filtered with
  | [] => NoDismiss
  | email :: rest =>
      if eqb (id email) email_id then Dismiss (Some email)
      else first_with_id rest email_id
  end.

(** [on_data_table_row_selected], with [event.row_key.value]; the row key
    itself is an object, always true. *)
Definition on_data_table_row_selected (filtered : list Email) (row_key_value : option str)
    : outcome :=
  match row_key_value with
  | Some ((_ :: _) as v) => first_with_id filtered v
  | _ => NoDismiss
  end.

End SearchModal.

(** ** [main.py]: the [generate-password] command *)

Module Main.

Import Secrets PasswordGenerator.

(** [PasswordOptions(length=length)] *)
Definition options_of_length (n : Z) : PasswordOptions :=
  {| length := n;
     include_uppercase := include_uppercase default_options;
     include_lowercase := include_lowercase default_options;
     include_digits := include_digits default_options;
     include_symbols := include_symbols default_options;
     exclude_ambiguous := exclude_ambiguous default_options |}.

Section Command.

Context {U : Unicode}.

(** The password the command prints, the length it prints for it and the
    strength report it prints the rating from. *)
Definition generate_password (length : Z) (memorable : bool) (words : Z)
    : M (str * Z * StrengthReport) :=
  password <-
    (if memorable
     then generate_memorable_password words (lit "-")
     else PasswordGenerator.generate_password (Some (options_of_length length))) ;;
  let strength := password_strength password in
  ret (password, Z.of_nat (List.length password), strength).

End Command.

End Main.

(** * Properties *)

Unset Implicit Arguments.

(** ** Strings *)

Module PyStrFacts.

Lemma eqb_eq (a b : str) : eqb a b = true <-> a = b.
Proof.
  revert b; induction a as [|x a IH]; intros [|y b]; simpl;
    try (split; [discriminate | congruence]); try tauto.
  rewrite andb_true_iff, N.eqb_eq, IH.
  split; [intros [-> ->]; reflexivity | intros E; injection E; auto].
Qed.

Lemma eqb_refl (a : str) : eqb a a = true.
Proof. apply eqb_eq; reflexivity. Qed.

(** [startswith] decides being a prefix. *)
Lemma startswith_spec (s q : str) :
  startswith s q = true <-> exists post, s = q ++ post.
Proof.
  revert s; induction q as [|x q IH]; intros s.
  - destruct s; simpl; split; eauto.
  - destruct s as [|y s]; simpl.
    + split; [discriminate | intros [post E]; discriminate].
    + rewrite andb_true_iff, N.eqb_eq, IH. split.
      * intros [-> [post ->]]; eauto.
      * intros [post E]; injection E as -> ->; eauto.
Qed.

Lemma startswith_nil (s : str) : startswith s [] = true.
Proof. destruct s; reflexivity. Qed.

Lemma startswith_app (q rest : str) : startswith (q ++ rest) q = true.
Proof. apply startswith_spec; eauto. Qed.

(** [contains] decides occurring as a contiguous run. *)
Lemma contains_spec (q s : str) :
  contains q s = true <-> exists pre post, s = pre ++ q ++ post.
Proof.
  induction s as [|y s IH]; cbn [contains].
  - rewrite orb_false_r, startswith_spec. split.
    + intros [post E]; exists [], post; exact E.
    + intros [pre [post E]].
      destruct pre; [eauto | discriminate].
  - rewrite orb_true_iff, startswith_spec, IH. split.
    + intros [[post E] | [pre [post E]]].
      * exists [], post; exact E.
      * exists (y :: pre), post; simpl; congruence.
    + intros [[|z pre] [post E]].
      * left; eauto.
      * right; injection E as _ E; eauto.
Qed.

Lemma contains_nil (s : str) : contains [] s = true.
Proof. apply contains_spec; exists [], s; reflexivity. Qed.

Lemma startswith_contains (s q : str) :
  startswith s q = true -> contains q s = true.
Proof.
  rewrite startswith_spec, contains_spec.
  intros [post E]; exists [], post; exact E.
Qed.

(** For a one-character string, [in] is membership. *)
Lemma contains_single (c : char) (s : str) :
  contains [c] s = true <-> In c s.
Proof.
  rewrite contains_spec. split.
  - intros [pre [post ->]]. apply in_or_app; right; left; reflexivity.
  - intros H. apply in_split in H. destruct H as [pre [post ->]].
    exists pre, post; reflexivity.
Qed.

Lemma ltb_irrefl (a : str) : ltb a a = false.
Proof.
  induction a as [|x a IH]; simpl; [reflexivity|].
  rewrite N.ltb_irrefl; exact IH.
Qed.

Lemma ltb_asym (a b : str) : ltb a b = true -> ltb b a = false.
Proof.
  revert b; induction a as [|x a IH]; intros [|y b]; simpl; try congruence.
  destruct (N.ltb_spec x y), (N.ltb_spec y x); try congruence; try lia.
  apply IH.
Qed.

Lemma ltb_trans (a b c : str) :
  ltb a b = true -> ltb b c = true -> ltb a c = true.
Proof.
  revert b c; induction a as [|x a IH]; intros [|y b] [|z c]; simpl;
    try congruence.
  destruct (N.ltb_spec x y), (N.ltb_spec y x), (N.ltb_spec y z),
    (N.ltb_spec z y), (N.ltb_spec x z), (N.ltb_spec z x);
    try congruence; try lia.
  apply IH.
Qed.

(** [<] is total on distinct strings. *)
Lemma ltb_total (a b : str) :
  ltb a b = false -> ltb b a = false -> a = b.
Proof.
  revert b; induction a as [|x a IH]; intros [|y b]; simpl;
    try congruence.
  destruct (N.ltb_spec x y), (N.ltb_spec y x); try congruence; try lia.
  intros Hab Hba. f_equal; [lia | auto].
Qed.

(** [a <= b] and [b <= c] give [a <= c]. *)
Lemma ltb_le_trans (a b c : str) :
  ltb b a = false -> ltb c b = false -> ltb c a = false.
Proof.
  intros Hba Hcb. destruct (ltb c a) eqn:Hca; [exfalso | reflexivity].
  destruct (ltb a b) eqn:Hab.
  - rewrite (ltb_trans _ _ _ Hca Hab) in Hcb; discriminate.
  - rewrite (ltb_total _ _ Hab Hba) in Hca. congruence.
Qed.

Lemma join_nil_singletons (l : str) :
  join [] (List.map (fun c => [c]) l) = l.
Proof.
  induction l as [|c l IH]; [reflexivity|].
  destruct l as [|d l]; [reflexivity|].
  change (c :: join [] (List.map (fun c => [c]) (d :: l)) = c :: d :: l).
  rewrite IH; reflexivity.
Qed.

(** *** [split] after [join] *)

Lemma split_scan_skip (sep t rest cur : str) :
  split_scan sep (t ++ rest) cur (List.length t) = split_scan sep rest cur 0.
Proof.
  induction t as [|c t IH]; [|exact IH].
  destruct rest; reflexivity.
Qed.

(** At a separator the segment read so far is closed. *)
Lemma split_scan_sep (sep rest cur : str) :
  sep <> [] ->
  split_scan sep (sep ++ rest) cur 0
  = List.rev cur :: split_scan sep rest [] 0.
Proof.
  intros Hne. destruct sep as [|c0 sep']; [congruence|].
  change ((c0 :: sep') ++ rest) with (c0 :: (sep' ++ rest)).
  cbn [split_scan].
  change (c0 :: sep' ++ rest) with ((c0 :: sep') ++ rest).
  rewrite startswith_app.
  replace (List.length (c0 :: sep') - 1) with (List.length sep')
    by (simpl; lia).
  rewrite split_scan_skip. reflexivity.
Qed.

(** Characters other than the separator's first one are read into the
    current segment. *)
Lemma split_scan_segment (c0 : char) (sep' seg rest cur : str) :
  Forall (fun c => c <> c0) seg ->
  split_scan (c0 :: sep') (seg ++ rest) cur 0
  = split_scan (c0 :: sep') rest (List.rev seg ++ cur) 0.
Proof.
  intros Hseg; revert cur; induction Hseg as [|c seg Hc _ IH]; intros cur.
  - reflexivity.
  - change ((c :: seg) ++ rest) with (c :: (seg ++ rest)).
    cbn [split_scan startswith].
    destruct (N.eqb_spec c0 c) as [->|_]; [congruence|].
    cbn [andb]. rewrite IH. cbn [List.rev]. rewrite <- app_assoc. reflexivity.
Qed.

(** Splitting a joined string gives the parts back when the first
    character of the separator occurs in none of them. *)
Lemma split_join (c0 : char) (sep' : str) (parts : list str) :
  parts <> [] ->
  Forall (Forall (fun c => c <> c0)) parts ->
  split (join (c0 :: sep') parts) (c0 :: sep') = Some parts.
Proof.
  intros Hne Hparts. unfold split. f_equal.
  revert Hne; induction Hparts as [|p rest Hp Hrest IH]; intros Hne;
    [exfalso; apply Hne; reflexivity|].
  destruct rest as [|q rest].
  - cbn [join]. rewrite <- (app_nil_r p) at 1.
    rewrite split_scan_segment by exact Hp.
    cbn [split_scan]. rewrite app_nil_r, rev_involutive. reflexivity.
  - change (join (c0 :: sep') (p :: q :: rest))
      with (p ++ (c0 :: sep') ++ join (c0 :: sep') (q :: rest)).
    rewrite split_scan_segment by exact Hp.
    rewrite split_scan_sep by discriminate.
    rewrite app_nil_r, rev_involutive.
    rewrite IH by discriminate. reflexivity.
Qed.

End PyStrFacts.

(** ** The stable sort *)

Section PySortFacts.

Variables (A K : Type) (key : A -> K) (lt : K -> K -> bool).

(** [<] on the keys is a strict weak order. *)
Hypothesis lt_asym : forall a b, lt a b = true -> lt b a = false.
Hypothesis le_trans :
  forall a b c, lt b a = false -> lt c b = false -> lt c a = false.

(** [a] may stand before [b]: [b]'s key is not below [a]'s. *)
Definition key_le (a b : A) : Prop := lt (key b) (key a) = false.

(** A class of elements none of which is below another, such as the
    elements of one key. *)
Definition tied (p : A -> bool) : Prop :=
  forall a b, p a = true -> p b = true -> lt (key a) (key b) = false.

Lemma lt_irrefl (a : K) : lt a a = false.
Proof.
  destruct (lt a a) eqn:E; [|reflexivity].
  rewrite (lt_asym _ _ E) in E; discriminate.
Qed.

Lemma key_le_refl (a : A) : key_le a a.
Proof. apply lt_irrefl. Qed.

Lemma key_le_trans (a b c : A) : key_le a b -> key_le b c -> key_le a c.
Proof. unfold key_le; intros; eapply le_trans; eauto. Qed.

Lemma insert_stable_perm (x : A) (l : list A) :
  Permutation (insert_stable key lt x l) (x :: l).
Proof.
  induction l as [|y l IH]; simpl; [reflexivity|].
  destruct (lt (key y) (key x)); [|reflexivity].
  rewrite IH; apply perm_swap.
Qed.

Lemma sorted_by_key_perm (l : list A) :
  Permutation (sorted_by_key key lt l) l.
Proof.
  induction l as [|x l IH]; simpl; [reflexivity|].
  rewrite insert_stable_perm; auto.
Qed.

Lemma insert_stable_sorted (x : A) (l : list A) :
  StronglySorted key_le l -> StronglySorted key_le (insert_stable key lt x l).
Proof.
  induction 1 as [|y l Hs IH Hy]; simpl.
  - repeat constructor.
  - destruct (lt (key y) (key x)) eqn:E.
    + constructor; [exact IH|].
      rewrite insert_stable_perm.
      constructor; [apply lt_asym; exact E | exact Hy].
    + constructor; [constructor; assumption|].
      constructor; [exact E|].
      eapply Forall_impl; [|exact Hy].
      intros z Hz; eapply key_le_trans; eauto.
Qed.

Lemma sorted_by_key_sorted (l : list A) :
  StronglySorted key_le (sorted_by_key key lt l).
Proof.
  induction l as [|x l IH]; simpl; [constructor|].
  apply insert_stable_sorted; exact IH.
Qed.

Lemma insert_stable_filter (p : A -> bool) (x : A) (l : list A) :
  tied p ->
  List.filter p (insert_stable key lt x l) = List.filter p (x :: l).
Proof.
  intros Hp; induction l as [|y l IH]; [reflexivity|].
  cbn [insert_stable].
  destruct (lt (key y) (key x)) eqn:E; [|reflexivity].
  cbn [List.filter] in *. rewrite IH.
  destruct (p y) eqn:Py, (p x) eqn:Px; try reflexivity.
  rewrite (Hp y x Py Px) in E; discriminate.
Qed.

(** Stability: the elements of a tied class come out in input order. *)
Lemma sorted_by_key_stable (p : A -> bool) (l : list A) :
  tied p ->
  List.filter p (sorted_by_key key lt l) = List.filter p l.
Proof.
  intros Hp; induction l as [|x l IH]; [reflexivity|].
  cbn [sorted_by_key List.fold_right].
  rewrite insert_stable_filter by exact Hp.
  cbn [List.filter]. fold (sorted_by_key key lt l). rewrite IH; reflexivity.
Qed.

(** The elements whose key is neither below nor above [x]'s. *)
Definition tied_with (x : A) (a : A) : bool :=
  negb (lt (key a) (key x)) && negb (lt (key x) (key a)).

Lemma tied_with_tied (x : A) : tied (tied_with x).
Proof.
  intros a b Ha Hb. unfold tied_with in *.
  apply andb_true_iff in Ha, Hb.
  rewrite !negb_true_iff in Ha, Hb.
  destruct Ha as [Ha _], Hb as [_ Hb].
  apply (le_trans (key b) (key x) (key a)); assumption.
Qed.

Lemma tied_with_self (x : A) : tied_with x x = true.
Proof. unfold tied_with; rewrite lt_irrefl; reflexivity. Qed.

Lemma filter_eq_In (l1 l2 : list A) (y : A) :
  (forall p, tied p -> List.filter p l1 = List.filter p l2) ->
  In y l1 -> In y l2.
Proof.
  intros H Hy.
  assert (In y (List.filter (tied_with y) l1)) as Hf
    by (apply filter_In; split; [exact Hy | apply tied_with_self]).
  rewrite (H _ (tied_with_tied y)) in Hf.
  apply filter_In in Hf; tauto.
Qed.

(** Ordered and stable determine the result: every stable sort returns
    what [sorted_by_key] returns. *)
Lemma stable_sorted_unique (l1 l2 : list A) :
  StronglySorted key_le l1 -> StronglySorted key_le l2 ->
  (forall p, tied p -> List.filter p l1 = List.filter p l2) ->
  l1 = l2.
Proof.
  intros H1; revert l2; induction H1 as [|x t1 Hs1 IH Hx]; intros l2 H2 Hf.
  - destruct l2 as [|y t2]; [reflexivity|].
    assert (In y []) as [] by (eapply filter_eq_In;
      [intros p Hp; symmetry; apply Hf; exact Hp | left; reflexivity]).
  - destruct l2 as [|y t2].
    + assert (In x []) as [] by (eapply filter_eq_In; [exact Hf | left; reflexivity]).
    + inversion H2 as [|? ? Hs2 Hy]; subst.
      assert (x = y) as <-.
      { pose proof (Hf _ (tied_with_tied x)) as E.
        cbn [List.filter] in E. rewrite tied_with_self in E.
        destruct (tied_with x y) eqn:Ty; [injection E; auto|].
        exfalso.
        assert (In y (x :: t1)) as Hin1
          by (eapply filter_eq_In;
              [intros p Hp; symmetry; apply Hf; exact Hp | left; reflexivity]).
        assert (In x (y :: t2)) as Hin2
          by (eapply filter_eq_In; [exact Hf | left; reflexivity]).
        assert (key_le x y) as Lxy.
        { destruct Hin1 as [<- | Hin1]; [apply key_le_refl|].
          rewrite Forall_forall in Hx; auto. }
        assert (key_le y x) as Lyx.
        { destruct Hin2 as [<- | Hin2]; [apply key_le_refl|].
          rewrite Forall_forall in Hy; auto. }
        unfold tied_with, key_le in *. rewrite Lxy, Lyx in Ty; discriminate. }
      f_equal. apply IH; [exact Hs2|].
      intros p Hp. specialize (Hf p Hp). cbn [List.filter] in Hf.
      destruct (p x); [injection Hf; auto | exact Hf].
Qed.

Lemma sorted_by_key_unique (l l' : list A) :
  StronglySorted key_le l' ->
  (forall p, tied p -> List.filter p l' = List.filter p l) ->
  l' = sorted_by_key key lt l.
Proof.
  intros Hs Hf. apply stable_sorted_unique;
    [exact Hs | apply sorted_by_key_sorted |].
  intros p Hp. rewrite sorted_by_key_stable by exact Hp. apply Hf; exact Hp.
Qed.

(** Sorting a sorted list changes nothing. *)
Lemma sorted_by_key_idempotent (l : list A) :
  sorted_by_key key lt (sorted_by_key key lt l) = sorted_by_key key lt l.
Proof.
  symmetry. apply sorted_by_key_unique; [apply sorted_by_key_sorted|].
  intros p Hp. reflexivity.
Qed.

(** In an ordered list an element of strictly smaller key stands before
    one of larger key. *)
Lemma sorted_strict_before (l : list A) (a b : A) :
  StronglySorted key_le l -> In a l -> In b l ->
  lt (key a) (key b) = true ->
  exists l1 l2 l3, l = l1 ++ a :: l2 ++ b :: l3.
Proof.
  intros Hs Ha Hb Hab.
  induction Hs as [|x t Hs IH Hx].
  - destruct Ha.
  - rewrite Forall_forall in Hx.
    destruct Hb as [-> | Hb].
    + destruct Ha as [-> | Ha].
      * rewrite lt_irrefl in Hab; discriminate.
      * specialize (Hx _ Ha). unfold key_le in Hx. congruence.
    + destruct Ha as [-> | Ha].
      * apply in_split in Hb. destruct Hb as [l2 [l3 ->]].
        exists [], l2, l3; reflexivity.
      * destruct (IH Ha Hb) as [l1 [l2 [l3 ->]]].
        exists (x :: l1), l2, l3; reflexivity.
Qed.

End PySortFacts.

Arguments key_le {A K} key lt a b.
Arguments tied {A K} key lt p.
Arguments tied_with {A K} key lt x a.

(** An ordered list stays ordered under a weaker relation. *)
Lemma StronglySorted_impl {A : Type} (R S : A -> A -> Prop) (l : list A) :
  (forall a b, R a b -> S a b) -> StronglySorted R l -> StronglySorted S l.
Proof.
  intros HRS; induction 1 as [|x l _ IH Hx]; constructor; [exact IH|].
  eapply Forall_impl; [|exact Hx]. intros b; apply HRS.
Qed.

(** Sorting pairs [(f x, x)] on their first component is sorting on [f]. *)
Lemma sorted_by_key_decorate (A K : Type) (f : A -> K) (lt : K -> K -> bool)
    (l : list A) :
  sorted_by_key fst lt (List.map (fun x => (f x, x)) l)
  = List.map (fun x => (f x, x)) (sorted_by_key f lt l).
Proof.
  induction l as [|x l IH]; [reflexivity|].
  cbn [List.map sorted_by_key List.fold_right].
  fold (sorted_by_key fst lt (List.map (fun x => (f x, x)) l)).
  fold (sorted_by_key f lt l). rewrite IH.
  generalize (sorted_by_key f lt l) as s; intros s.
  induction s as [|y s IHs]; [reflexivity|].
  cbn [List.map insert_stable fst].
  destruct (lt (f y) (f x)); [|reflexivity].
  cbn [List.map]. rewrite IHs; reflexivity.
Qed.

(** ** Drawing from the entropy source *)

Module SecretsFacts.

Import Secrets.

Definition advance (n : nat) (g : rng) : rng :=
  {| tape := tape g; pos := n + pos g |}.

Lemma randbelow_ok (n : nat) (g : rng) :
  n <> 0 ->
  randbelow n g = (Ok (Nat.modulo (tape g (pos g)) n), advance 1 g)
  /\ Nat.modulo (tape g (pos g)) n < n.
Proof.
  intros Hn. destruct n as [|n]; [congruence|].
  split; [reflexivity | apply Nat.mod_upper_bound; exact Hn].
Qed.

(** [choice] on a non-empty sequence returns one of its elements and
    reads one draw. *)
Lemma choice_ok {A : Type} (seq : list A) (g : rng) :
  seq <> [] ->
  exists a, choice seq g = (Ok a, advance 1 g) /\ In a seq.
Proof.
  intros Hne. destruct seq as [|d t]; [congruence|].
  exists (List.nth (Nat.modulo (tape g (pos g)) (List.length (d :: t))) (d :: t) d).
  split; [reflexivity|].
  apply nth_In, Nat.mod_upper_bound. simpl; lia.
Qed.

Lemma choice_empty {A : Type} (g : rng) :
  choice (@nil A) g = (Raise IndexError, g).
Proof. reflexivity. Qed.

Lemma advance_advance (n m : nat) (g : rng) :
  advance n (advance m g) = advance (n + m) g.
Proof. unfold advance; simpl. f_equal. lia. Qed.

(** [n] draws from a non-empty sequence never raise: they return [n]
    elements of it. *)
Lemma replicateM_choice_ok {A : Type} (seq : list A) (n : nat) (g : rng) :
  seq <> [] ->
  exists l,
    replicateM n (choice seq) g = (Ok l, advance n g)
    /\ List.length l = n
    /\ Forall (fun a => In a seq) l.
Proof.
  intros Hne. revert g; induction n as [|n IH]; intros g.
  - exists []. destruct g; repeat split; constructor.
  - destruct (choice_ok seq g Hne) as [a [Ea Ha]].
    destruct (IH (advance 1 g)) as [l [El [Hlen Hall]]].
    exists (a :: l). split; [|split].
    + cbn [replicateM]. unfold bind at 1. rewrite Ea.
      unfold bind at 1. rewrite El.
      unfold ret. rewrite advance_advance.
      replace (n + 1) with (S n) by lia. reflexivity.
    + simpl; congruence.
    + constructor; assumption.
Qed.

(** The [n] elements of [seq] that the draws at positions [pos g],
    [pos g + 1], ... pick. *)
Definition draws {A : Type} (seq : list A) (d : A) (g : rng) (n : nat) : list A :=
  List.map (fun i => List.nth (Nat.modulo (tape g (pos g + i)) (List.length seq)) seq d)
    (List.seq 0 n).

Lemma draws_length {A : Type} (seq : list A) (d : A) (g : rng) (n : nat) :
  List.length (draws seq d g n) = n.
Proof. unfold draws. rewrite length_map, length_seq. reflexivity. Qed.

Lemma draws_In {A : Type} (seq : list A) (d : A) (g : rng) (n : nat) :
  seq <> [] -> Forall (fun a => In a seq) (draws seq d g n).
Proof.
  intros Hne. unfold draws. apply Forall_forall. intros a Ha.
  apply in_map_iff in Ha. destruct Ha as [i [<- _]].
  apply nth_In, Nat.mod_upper_bound. destruct seq; [congruence | discriminate].
Qed.

Lemma draws_map {A B : Type} (f : A -> B) (seq : list A) (d : A) (g : rng) (n : nat) :
  draws (List.map f seq) (f d) g n = List.map f (draws seq d g n).
Proof.
  unfold draws. rewrite map_map, length_map.
  apply map_ext. intros i. apply map_nth.
Qed.

(** [n] draws from a non-empty sequence return exactly the elements the
    source picks, in order, and leave it [n] positions further. *)
Lemma replicateM_choice_draws {A : Type} (seq : list A) (d : A) (n : nat) (g : rng) :
  seq <> [] ->
  replicateM n (choice seq) g = (Ok (draws seq d g n), advance n g).
Proof.
  intros Hne. revert g; induction n as [|n IH]; intros g.
  - destruct g; reflexivity.
  - cbn [replicateM]. unfold bind at 1.
    destruct seq as [|d0 t] eqn:Es; [congruence|]. rewrite <- Es in *.
    assert (choice seq g
            = (Ok (List.nth (Nat.modulo (tape g (pos g)) (List.length seq)) seq d),
               advance 1 g)) as Ec.
    { rewrite Es. unfold choice, bind, randbelow, ret. cbn [List.length].
      f_equal. f_equal. apply nth_indep. apply Nat.mod_upper_bound. discriminate. }
    rewrite Ec. unfold bind at 1. rewrite IH. unfold ret.
    rewrite advance_advance. replace (n + 1) with (S n) by lia.
    f_equal. f_equal. unfold draws.
    change (List.seq 0 (S n)) with (0 :: List.seq 1 n).
    cbn [List.map]. rewrite Nat.add_0_r. f_equal.
    rewrite <- seq_shift, map_map. apply map_ext. intros i.
    cbn [advance tape pos]. replace (1 + pos g + i) with (pos g + S i) by lia.
    reflexivity.
Qed.

End SecretsFacts.

(** ** The password generator *)

Module PasswordGeneratorFacts.

Import Secrets SecretsFacts PasswordGenerator PyStrFacts.

Lemma filter_chars_of (f : str -> bool) (s : str) :
  List.filter f (chars_of s) = chars_of (List.filter (fun c => f [c]) s).
Proof.
  unfold chars_of. induction s as [|c s IH]; [reflexivity|].
  cbn [List.map List.filter]. rewrite IH. destruct (f [c]); reflexivity.
Qed.

(** The generator expression of line 50 keeps the characters that are not
    ambiguous, in order. *)
Lemma remove_ambiguous_filter (options : PasswordOptions) (chars : str) :
  remove_ambiguous options chars =
  if exclude_ambiguous options
  then List.filter (fun c => negb (contains [c] AMBIGUOUS_CHARS)) chars
  else chars.
Proof.
  unfold remove_ambiguous. destruct (exclude_ambiguous options); [|reflexivity].
  rewrite filter_chars_of. apply join_nil_singletons.
Qed.

Lemma remove_ambiguous_In (options : PasswordOptions) (chars : str) (c : char) :
  In c (remove_ambiguous options chars) ->
  In c chars /\ (exclude_ambiguous options = true -> ~ In c AMBIGUOUS_CHARS).
Proof.
  rewrite remove_ambiguous_filter.
  destruct (exclude_ambiguous options).
  - rewrite filter_In, negb_true_iff. intros [Hc Hn]. split; [exact Hc|].
    intros _ Hin. apply contains_single in Hin. congruence.
  - intros Hc; split; [exact Hc | discriminate].
Qed.

Lemma effective_chars_nonempty (options : PasswordOptions) :
  effective_chars options <> [].
Proof.
  unfold effective_chars, or_fallback.
  destruct (remove_ambiguous options (class_chars options)); discriminate.
Qed.

Lemma picks_of_chars (s : str) (picks : list str) :
  Forall (fun p => In p (chars_of s)) picks ->
  exists l, picks = chars_of l /\ Forall (fun c => In c s) l.
Proof.
  induction 1 as [|p picks Hp _ [l [-> Hl]]].
  - exists []; split; [reflexivity | constructor].
  - unfold chars_of in Hp. apply in_map_iff in Hp.
    destruct Hp as [c [<- Hc]].
    exists (c :: l); split; [reflexivity | constructor; assumption].
Qed.

(** [generate_password] never raises: it reads [range_len length] draws
    and returns that many characters of the effective set. *)
Lemma generate_password_ok (options : PasswordOptions) (g : rng) :
  exists pw,
    generate_password (Some options) g
      = (Ok pw, advance (range_len (length options)) g)
    /\ List.length pw = range_len (length options)
    /\ Forall (fun c => In c (effective_chars options)) pw.
Proof.
  pose proof (effective_chars_nonempty options) as Hne.
  assert (chars_of (effective_chars options) <> []) as Hne'.
  { unfold chars_of. destruct (effective_chars options); [congruence | discriminate]. }
  destruct (replicateM_choice_ok _ (range_len (length options)) g Hne')
    as [picks [E [Hlen Hall]]].
  destruct (picks_of_chars _ _ Hall) as [l [-> Hl]].
  exists l. split; [|split].
  - unfold generate_password, bind. rewrite E. unfold ret.
    unfold chars_of. rewrite join_nil_singletons. reflexivity.
  - unfold chars_of in Hlen. rewrite length_map in Hlen. exact Hlen.
  - exact Hl.
Qed.

Lemma generate_password_default (g : rng) :
  generate_password None g = generate_password (Some default_options) g.
Proof. unfold generate_password. reflexivity. Qed.

(** All four classes switched off. *)
Definition no_class (options : PasswordOptions) : Prop :=
  include_lowercase options = false /\ include_uppercase options = false /\
  include_digits options = false /\ include_symbols options = false.

(** The fallback branch runs exactly when no class is enabled: every
    class keeps a character after the ambiguous ones are dropped. *)
Lemma fallback_used_iff (options : PasswordOptions) :
  fallback_used options = true <-> no_class options.
Proof.
  unfold no_class.
  destruct options as [len [] [] [] [] []]; vm_compute;
    intuition discriminate.
Qed.

(** With a class enabled and [exclude_ambiguous] set, no ambiguous
    character is ever drawn. *)
Lemma generate_password_unambiguous (options : PasswordOptions) (g : rng) :
  exclude_ambiguous options = true ->
  ~ no_class options ->
  exists pw g',
    generate_password (Some options) g = (Ok pw, g')
    /\ Forall (fun c => ~ In c AMBIGUOUS_CHARS) pw.
Proof.
  intros Hex Hcls.
  destruct (generate_password_ok options g) as [pw [E [_ Hall]]].
  exists pw, (advance (range_len (length options)) g). split; [exact E|].
  eapply Forall_impl; [|exact Hall].
  intros c Hc. unfold effective_chars, or_fallback in Hc.
  destruct (remove_ambiguous options (class_chars options)) as [|d t] eqn:Er.
  - exfalso. apply Hcls, fallback_used_iff. unfold fallback_used.
    rewrite Er; reflexivity.
  - rewrite <- Er in Hc. apply remove_ambiguous_In in Hc. tauto.
Qed.

(** C7.  For every [PasswordOptions] with [length = L >= 1], whatever the
    entropy source gives, [generate_password] returns (it does not raise)
    a string of exactly [L] characters, each one a character of the
    effective character set. *)
Theorem generate_password_length (options : PasswordOptions) (g : rng) :
  (1 <= length options)%Z ->
  exists pw g',
    generate_password (Some options) g = (Ok pw, g')
    /\ Z.of_nat (List.length pw) = length options
    /\ Forall (fun c => In c (effective_chars options)) pw.
Proof.
  intros HL.
  destruct (generate_password_ok options g) as [pw [E [Hlen Hall]]].
  exists pw, (advance (range_len (length options)) g).
  split; [exact E | split; [|exact Hall]].
  rewrite Hlen. unfold range_len. lia.
Qed.

Definition zero_tape : rng := {| tape := fun _ => 0; pos := 0 |}.

Lemma generate_password_length_witness :
  (1 <= length default_options)%Z /\
  exists pw g',
    generate_password (Some default_options) zero_tape = (Ok pw, g')
    /\ Z.of_nat (List.length pw) = length default_options
    /\ Forall (fun c => In c (effective_chars default_options)) pw.
Proof.
  split; [simpl; lia|].
  apply (generate_password_length default_options zero_tape); simpl; lia.
Defined.

(** The letters and the digits, enabled as classes and with nothing
    excluded, spell the same string as the fallback set; they are then the
    set of the classes, not a substitute for an empty one. *)
Lemma letters_digits_not_fallback :
  let options := {| length := 24; include_uppercase := true;
                    include_lowercase := true; include_digits := true;
                    include_symbols := false; exclude_ambiguous := false |} in
  fallback_used options = false /\ effective_chars options = fallback_chars.
Proof. split; reflexivity. Qed.

(** What [generate_password] returns: the characters of the effective
    set that the draws pick, one draw for each. *)
Lemma generate_password_draws (options : PasswordOptions) (g : rng) :
  generate_password (Some options) g
  = (Ok (draws (effective_chars options) 0%N g (range_len (length options))),
     advance (range_len (length options)) g).
Proof.
  assert (chars_of (effective_chars options) <> []) as Hne.
  { pose proof (effective_chars_nonempty options).
    unfold chars_of. destruct (effective_chars options); [congruence | discriminate]. }
  unfold generate_password, bind.
  rewrite (replicateM_choice_draws _ [0%N] _ g Hne). unfold ret.
  unfold chars_of at 1.
  rewrite (draws_map (fun c => [c]) (effective_chars options) 0%N).
  rewrite join_nil_singletons. reflexivity.
Qed.

(** Lowercase, uppercase and digits enabled, symbols and exclusion off. *)
Definition letters_and_digits (options : PasswordOptions) : Prop :=
  include_lowercase options = true /\ include_uppercase options = true
  /\ include_digits options = true /\ include_symbols options = false
  /\ exclude_ambiguous options = false.

(** The set of the enabled classes spells the fallback set only for the
    letters and digits with nothing excluded. *)
Lemma class_chars_fallback_iff (options : PasswordOptions) :
  remove_ambiguous options (class_chars options) = fallback_chars
  <-> letters_and_digits options.
Proof.
  unfold letters_and_digits. rewrite <- eqb_eq.
  destruct options as [len [] [] [] [] []]; vm_compute;
    intuition discriminate.
Qed.

(** C8, as the code has it.  The set left after the ambiguous characters
    are dropped is empty, so that the fallback set (ASCII letters of both
    cases and the digits) is substituted, exactly when all four classes
    are disabled, and the password is then the characters of the fallback
    set that the draws pick.  With a class enabled that set is not empty,
    nothing is substituted and the password is the characters of that set
    that the draws pick.  The set of the classes is itself the string of
    the fallback set exactly when lowercase, uppercase and digits are
    enabled with symbols and exclusion off: drawing from the fallback set
    does not tell that all four classes are disabled. *)
Theorem generate_password_alphabet (options : PasswordOptions) (g : rng) :
  let filtered := remove_ambiguous options (class_chars options) in
  let n := range_len (length options) in
  (filtered = [] <-> no_class options)
  /\ (no_class options ->
      generate_password (Some options) g
        = (Ok (draws fallback_chars 0%N g n), advance n g)
      /\ List.length (draws fallback_chars 0%N g n) = n
      /\ Forall (fun c => In c fallback_chars) (draws fallback_chars 0%N g n))
  /\ (~ no_class options ->
      filtered <> []
      /\ generate_password (Some options) g
         = (Ok (draws filtered 0%N g n), advance n g)
      /\ List.length (draws filtered 0%N g n) = n
      /\ Forall (fun c => In c filtered) (draws filtered 0%N g n)
      /\ (filtered = fallback_chars <-> letters_and_digits options)).
Proof.
  cbv zeta.
  pose proof (fallback_used_iff options) as Hiff.
  pose proof (generate_password_draws options g) as E.
  unfold fallback_used, effective_chars, or_fallback in *.
  split; [|split].
  - rewrite <- Hiff.
    destruct (remove_ambiguous options (class_chars options));
      split; intros H; try reflexivity; discriminate.
  - intros Hn. apply Hiff in Hn.
    destruct (remove_ambiguous options (class_chars options)); [|discriminate].
    split; [exact E|]. split; [apply draws_length|].
    apply draws_In. discriminate.
  - intros Hn.
    pose proof (class_chars_fallback_iff options) as Hc.
    destruct (remove_ambiguous options (class_chars options)) as [|d t].
    + exfalso; apply Hn, Hiff; reflexivity.
    + split; [discriminate|]. split; [exact E|].
      split; [apply draws_length|].
      split; [apply draws_In; discriminate | exact Hc].
Qed.

Definition letters_only : PasswordOptions := {|
  length := 3;
  include_uppercase := false;
  include_lowercase := true;
  include_digits := false;
  include_symbols := false;
  exclude_ambiguous := true
|}.

Lemma generate_password_alphabet_witness :
  ~ no_class letters_only
  /\ remove_ambiguous letters_only (class_chars letters_only) <> []
  /\ generate_password (Some letters_only) zero_tape
     = (Ok (draws (remove_ambiguous letters_only (class_chars letters_only)) 0%N
              zero_tape (range_len (length letters_only))),
        advance (range_len (length letters_only)) zero_tape)
  /\ List.length
       (draws (remove_ambiguous letters_only (class_chars letters_only)) 0%N
          zero_tape (range_len (length letters_only)))
     = range_len (length letters_only)
  /\ Forall (fun c => In c (remove_ambiguous letters_only (class_chars letters_only)))
       (draws (remove_ambiguous letters_only (class_chars letters_only)) 0%N
          zero_tape (range_len (length letters_only)))
  /\ (remove_ambiguous letters_only (class_chars letters_only) = fallback_chars
      <-> letters_and_digits letters_only).
Proof.
  assert (~ no_class letters_only) as Hcls
    by (unfold no_class; simpl; intros [H _]; discriminate).
  split; [exact Hcls|].
  apply (generate_password_alphabet letters_only zero_tape). exact Hcls.
Defined.

(** Letters and digits enabled, nothing excluded; and no class at all. *)
Definition letters_digits : PasswordOptions := {|
  length := 24;
  include_uppercase := true;
  include_lowercase := true;
  include_digits := true;
  include_symbols := false;
  exclude_ambiguous := false
|}.

Definition no_class_24 : PasswordOptions := {|
  length := 24;
  include_uppercase := false;
  include_lowercase := false;
  include_digits := false;
  include_symbols := false;
  exclude_ambiguous := false
|}.

(** C8 fails as stated in its only-if part: with the letters and the
    digits enabled and nothing excluded, three classes are on and yet the
    password is drawn from the very string of the fallback set, so that
    for every outcome of the source [generate_password] returns what it
    returns with all four classes disabled. *)
Lemma generate_password_fallback_with_classes :
  ~ no_class letters_digits
  /\ effective_chars letters_digits = fallback_chars
  /\ (forall g, generate_password (Some letters_digits) g
                = generate_password (Some no_class_24) g)
  /\ ~ (forall options, effective_chars options = fallback_chars
                        <-> no_class options).
Proof.
  assert (~ no_class letters_digits) as Hcls
    by (unfold no_class; simpl; intros [H _]; discriminate).
  assert (effective_chars letters_digits = fallback_chars) as Heff by reflexivity.
  split; [exact Hcls|]. split; [exact Heff|]. split.
  - intros g. rewrite !generate_password_draws.
    rewrite Heff. reflexivity.
  - intros H. apply Hcls, H. exact Heff.
Qed.

(** All classes off, ambiguous characters to be excluded. *)
Definition no_class_unambiguous : PasswordOptions := {|
  length := 1;
  include_uppercase := false;
  include_lowercase := false;
  include_digits := false;
  include_symbols := false;
  exclude_ambiguous := true
|}.

(** C1 fails on the fallback branch.  With [exclude_ambiguous] set and
    no class enabled the exclusion of line 50 filters the empty string,
    and line 53 then installs the letters and digits unfiltered: a
    source whose draw is 52 makes [generate_password] return the
    ambiguous character [0]. *)
Theorem generate_password_fallback_ambiguous :
  exclude_ambiguous no_class_unambiguous = true
  /\ (1 <= length no_class_unambiguous)%Z
  /\ generate_password (Some no_class_unambiguous) {| tape := fun _ => 52; pos := 0 |}
     = (Ok (lit "0"), {| tape := fun _ => 52; pos := 1 |})
  /\ Exists (fun c => In c AMBIGUOUS_CHARS) (lit "0").
Proof.
  split; [reflexivity | split; [simpl; lia | split]].
  - vm_compute. reflexivity.
  - constructor. vm_compute. left; reflexivity.
Qed.

(** *** Strength *)

Definition b2z (b : bool) : Z := if b then 1%Z else 0%Z.

(** One point for each of the thresholds 8, 12, 16 and 24 that the
    length reaches. *)
Definition length_points (n : Z) : Z :=
  (b2z (8 <=? n) + b2z (12 <=? n) + b2z (16 <=? n) + b2z (24 <=? n))%Z.

(** Some character of [password] satisfies [P]. *)
Definition present (P : char -> Prop) (password : str) : Prop :=
  exists c, In c password /\ P c.

Lemma existsb_present (p : char -> bool) (password : str) :
  List.existsb p password = true <-> present (fun c => p c = true) password.
Proof. apply existsb_exists. Qed.

Lemma existsb_chars_of (f : str -> bool) (s : str) :
  List.existsb f (chars_of s) = List.existsb (fun c => f [c]) s.
Proof.
  unfold chars_of. induction s as [|c s IH]; [reflexivity|].
  cbn [List.map List.existsb]. rewrite IH; reflexivity.
Qed.

Lemma if_b2z (b : bool) (x : Z) :
  (if b then (x + 1)%Z else x) = (x + b2z b)%Z.
Proof. destruct b; simpl; lia. Qed.

Section StrengthFacts.

Context {U : Unicode}.

Lemma password_strength_fields (password : str) :
  let r := password_strength password in
  let n := Z.of_nat (List.length password) in
  has_lowercase r = List.existsb islower password
  /\ has_uppercase r = List.existsb isupper password
  /\ has_digits r = List.existsb isdigit password
  /\ has_symbols r = List.existsb (fun c => contains [c] punctuation) password
  /\ report_length r = n
  /\ max_score r = 8%Z
  /\ score r = (length_points n + b2z (has_lowercase r) + b2z (has_uppercase r)
                + b2z (has_digits r) + b2z (has_symbols r))%Z
  /\ (strength r, color r) = rating (score r).
Proof.
  cbv zeta. unfold password_strength.
  rewrite existsb_chars_of, !if_b2z.
  destruct (rating _) as [st co] eqn:Er.
  cbn [score max_score strength color report_length has_lowercase
       has_uppercase has_digits has_symbols].
  repeat split. symmetry; exact Er.
Qed.

(** C6.  For every string, the empty one included, [password_strength]
    reports which of the four classes (lowercase, uppercase, digit,
    ASCII punctuation) occur in it; its score is the number of length
    thresholds among 8, 12, 16, 24 that the length reaches plus the
    number of classes that occur, hence between 0 and 8, with
    [max_score] 8; the label is [strong] from 7, [good] for 5 and 6,
    [moderate] for 3 and 4 and [weak] below 3. *)
Theorem password_strength_score (password : str) :
  let r := password_strength password in
  (has_lowercase r = true <-> present (fun c => islower c = true) password)
  /\ (has_uppercase r = true <-> present (fun c => isupper c = true) password)
  /\ (has_digits r = true <-> present (fun c => isdigit c = true) password)
  /\ (has_symbols r = true <-> present (fun c => In c punctuation) password)
  /\ score r = (length_points (Z.of_nat (List.length password))
                + b2z (has_lowercase r) + b2z (has_uppercase r)
                + b2z (has_digits r) + b2z (has_symbols r))%Z
  /\ (0 <= score r <= 8)%Z
  /\ max_score r = 8%Z
  /\ ((7 <= score r)%Z -> strength r = lit "strong")
  /\ ((5 <= score r < 7)%Z -> strength r = lit "good")
  /\ ((3 <= score r < 5)%Z -> strength r = lit "moderate")
  /\ ((score r < 3)%Z -> strength r = lit "weak").
Proof.
  cbv zeta.
  destruct (password_strength_fields password)
    as (Hl & Hu & Hd & Hs & _ & Hmax & Hscore & Hrate).
  cbv zeta in *.
  assert (0 <= score (password_strength password) <= 8)%Z as Hrange.
  { rewrite Hscore. unfold length_points, b2z.
    destruct (has_lowercase _), (has_uppercase _), (has_digits _),
      (has_symbols _), (8 <=? _)%Z eqn:E8, (12 <=? _)%Z eqn:E12,
      (16 <=? _)%Z eqn:E16, (24 <=? _)%Z eqn:E24; lia. }
  assert (strength (password_strength password)
          = fst (rating (score (password_strength password)))) as Hstr
    by (rewrite <- Hrate; reflexivity).
  split; [rewrite Hl; apply existsb_present|].
  split; [rewrite Hu; apply existsb_present|].
  split; [rewrite Hd; apply existsb_present|].
  split.
  { rewrite Hs, existsb_present. unfold present.
    split; intros [c [Hc Hp]]; exists c; (split; [exact Hc|]);
      apply contains_single; exact Hp. }
  split; [exact Hscore|]. split; [exact Hrange|]. split; [exact Hmax|].
  rewrite Hstr. unfold rating.
  generalize (score (password_strength password)) as k; intros k.
  repeat split; intros Hk;
    destruct (Z.leb_spec 7 k), (Z.leb_spec 5 k), (Z.leb_spec 3 k);
    try lia; reflexivity.
Qed.

End StrengthFacts.

(** The cases the specification lists, on ASCII input. *)
Example password_strength_empty :
  let r := @password_strength AsciiTables.tables [] in
  score r = 0%Z /\ strength r = lit "weak".
Proof. split; reflexivity. Qed.

Example password_strength_abc :
  let r := @password_strength AsciiTables.tables (lit "abc") in
  score r = 1%Z /\ strength r = lit "weak".
Proof. split; reflexivity. Qed.

Example password_strength_full :
  let r := @password_strength AsciiTables.tables (lit "abcdefghABCDEFGH0123!@#$") in
  score r = 8%Z /\ strength r = lit "strong".
Proof. split; reflexivity. Qed.

Lemma password_strength_score_witness :
  (score (@password_strength AsciiTables.tables (lit "abc")) < 3)%Z
  /\ strength (@password_strength AsciiTables.tables (lit "abc")) = lit "weak".
Proof.
  split; [vm_compute; reflexivity|].
  apply (@password_strength_score AsciiTables.tables (lit "abc")).
  vm_compute; reflexivity.
Defined.

(** *** Memorable passwords *)

Definition is_digit (c : char) : bool := AsciiTables.in_range 48 57 c.

Definition is_lower_or_digit (c : char) : bool :=
  AsciiTables.in_range 97 122 c || is_digit c.

(** A decimal numeral of one or two digits, with no zero put in front to
    fill two places. *)
Definition short_numeral (s : str) : Prop :=
  (List.length s = 1 \/ List.length s = 2)
  /\ Forall (fun c => is_digit c = true) s
  /\ (List.length s = 2 -> List.hd 0%N s <> 48%N).

Lemma words_nonempty : words <> [].
Proof. discriminate. Qed.

Lemma words_lower :
  Forall (Forall (fun c => is_lower_or_digit c = true)) words.
Proof.
  assert (List.forallb (List.forallb is_lower_or_digit) words = true) as H
    by (vm_compute; reflexivity).
  rewrite forallb_forall in H. apply Forall_forall. intros w Hw.
  specialize (H w Hw). rewrite forallb_forall in H.
  apply Forall_forall; exact H.
Qed.

Definition short_numeral_b (s : str) : bool :=
  (Nat.eqb (List.length s) 1 || Nat.eqb (List.length s) 2)
  && List.forallb is_digit s
  && (negb (Nat.eqb (List.length s) 2) || negb (N.eqb (List.hd 0%N s) 48)).

Lemma short_numeral_b_true (s : str) :
  short_numeral_b s = true -> short_numeral s.
Proof.
  unfold short_numeral_b, short_numeral.
  rewrite !andb_true_iff, !orb_true_iff, !negb_true_iff, !Nat.eqb_eq,
    Nat.eqb_neq, N.eqb_neq, forallb_forall, Forall_forall.
  intuition.
Qed.

(** [str(n)] for [n] below 100. *)
Lemma of_nat_below_100 (n : nat) :
  n < 100 -> short_numeral (of_nat n).
Proof.
  intros Hn. apply short_numeral_b_true.
  assert (List.forallb (fun k => short_numeral_b (of_nat k)) (List.seq 0 100) = true)
    as H by (vm_compute; reflexivity).
  rewrite forallb_forall in H. apply H, in_seq. lia.
Qed.

Lemma short_numeral_chars (s : str) (c0 : char) :
  short_numeral s -> is_lower_or_digit c0 = false ->
  Forall (fun c => c <> c0) s.
Proof.
  intros (_ & Hd & _) Hc0. eapply Forall_impl; [|exact Hd].
  intros c Hc ->. unfold is_lower_or_digit in Hc0.
  rewrite Hc, orb_true_r in Hc0; discriminate.
Qed.

(** [generate_memorable_password] never raises for a non-negative
    count: it joins the words drawn and the numeral. *)
Lemma generate_memorable_password_ok (num_words : Z) (separator : str) (g : rng) :
  exists selected n g',
    generate_memorable_password num_words separator g
      = (Ok (join separator (selected ++ [of_nat n])), g')
    /\ List.length selected = range_len num_words
    /\ Forall (fun w => In w words) selected
    /\ n < 100.
Proof.
  destruct (replicateM_choice_ok words (range_len num_words) g words_nonempty)
    as [selected [E [Hlen Hall]]].
  set (g1 := advance (range_len num_words) g) in *.
  destruct (randbelow_ok 100 g1) as [En Hn]; [discriminate|].
  exists selected, (Nat.modulo (tape g1 (pos g1)) 100), (advance 1 g1).
  split; [|auto].
  unfold generate_memorable_password, bind. rewrite E, En. reflexivity.
Qed.

(** C9, as the code has it.  For every positive [num_words] and every
    separator that is not empty and whose first character is neither a
    lowercase ASCII letter nor a decimal digit (the default [-] is one),
    [generate_memorable_password] returns a string whose split on the
    separator has exactly [num_words + 1] segments: the words drawn,
    then the string form of an integer in [[0, 99]], a numeral of one or
    two digits without padding. *)
Theorem generate_memorable_password_segments
    (num_words : Z) (separator : str) (g : rng) :
  (0 < num_words)%Z ->
  (exists c0 sep', separator = c0 :: sep' /\ is_lower_or_digit c0 = false) ->
  exists pw g' segs n,
    generate_memorable_password num_words separator g = (Ok pw, g')
    /\ split pw separator = Some segs
    /\ Z.of_nat (List.length segs) = (num_words + 1)%Z
    /\ Forall (fun w => In w words) (List.removelast segs)
    /\ List.last segs [] = of_nat n
    /\ n < 100
    /\ short_numeral (List.last segs []).
Proof.
  intros Hpos (c0 & sep' & -> & Hc0).
  destruct (generate_memorable_password_ok num_words (c0 :: sep') g)
    as (selected & n & g' & E & Hlen & Hall & Hn).
  pose proof (of_nat_below_100 n Hn) as Hnum.
  exists (join (c0 :: sep') (selected ++ [of_nat n])), g',
    (selected ++ [of_nat n]), n.
  split; [exact E|]. split.
  { apply split_join.
    - destruct selected; discriminate.
    - apply Forall_app. split.
      + pose proof words_lower as Hw. rewrite Forall_forall in Hw, Hall.
        apply Forall_forall. intros w Hin.
        eapply Forall_impl; [|exact (Hw w (Hall w Hin))].
        intros c Hc ->. rewrite Hc in Hc0; discriminate.
      + constructor; [|constructor].
        eapply short_numeral_chars; eauto. }
  rewrite length_app, removelast_last, last_last. cbn [List.length].
  split; [rewrite Hlen; unfold range_len; lia|].
  split; [exact Hall|]. split; [reflexivity|].
  split; [exact Hn | exact Hnum].
Qed.

Lemma generate_memorable_password_segments_witness :
  (0 < 4)%Z /\
  (exists c0 sep', lit "-" = c0 :: sep' /\ is_lower_or_digit c0 = false) /\
  exists pw g' segs n,
    generate_memorable_password 4 (lit "-") zero_tape = (Ok pw, g')
    /\ split pw (lit "-") = Some segs
    /\ Z.of_nat (List.length segs) = (4 + 1)%Z
    /\ Forall (fun w => In w words) (List.removelast segs)
    /\ List.last segs [] = of_nat n
    /\ n < 100
    /\ short_numeral (List.last segs []).
Proof.
  assert (exists c0 sep', lit "-" = c0 :: sep' /\ is_lower_or_digit c0 = false)
    as Hsep by (exists 45%N, []; split; reflexivity).
  split; [lia | split; [exact Hsep|]].
  apply (generate_memorable_password_segments 4 (lit "-") zero_tape);
    [lia | exact Hsep].
Defined.

(** C9 fails for a separator that occurs in a word: with one word and
    the separator [a], a source of zero draws gives [applea0], which
    splits on [a] into three segments (an empty one, [pple], [0]), not two.
    So the claim does not hold for every separator. *)
Lemma generate_memorable_password_separator_in_word :
  generate_memorable_password 1 (lit "a") zero_tape
    = (Ok (lit "applea0"), {| tape := fun _ => 0; pos := 2 |})
  /\ split (lit "applea0") (lit "a") = Some [[]; lit "pple"; lit "0"]
  /\ ~ (forall (num_words : Z) (separator : str) (g : rng),
          (0 < num_words)%Z ->
          exists pw g' segs,
            generate_memorable_password num_words separator g = (Ok pw, g')
            /\ split pw separator = Some segs
            /\ Z.of_nat (List.length segs) = (num_words + 1)%Z).
Proof.
  split; [vm_compute; reflexivity|].
  split; [vm_compute; reflexivity|].
  intros H.
  destruct (H 1%Z (lit "a") zero_tape) as (pw & g' & segs & E & Hs & Hl); [lia|].
  vm_compute in E. injection E as <- _.
  vm_compute in Hs. injection Hs as <-.
  vm_compute in Hl. discriminate.
Qed.

(** An empty separator joins the tokens, but cannot be split on. *)
Example generate_memorable_password_empty_separator :
  generate_memorable_password 2 [] zero_tape
    = (Ok (lit "appleapple0"), {| tape := fun _ => 0; pos := 3 |})
  /\ split (lit "appleapple0") [] = None.
Proof. split; vm_compute; reflexivity. Qed.

End PasswordGeneratorFacts.

(** ** Mailbox ordering *)

Module MailboxFacts.

Import MailboxModel PyStrFacts.

(** [<] on the key tuples is the lexicographic order. *)
Lemma tuple_ltb_true (a1 b1 a2 b2 : Z) (c1 c2 : str) :
  tuple_ltb (a1, b1, c1) (a2, b2, c2) = true <->
  (a1 < a2 \/ (a1 = a2 /\ (b1 < b2 \/ (b1 = b2 /\ ltb c1 c2 = true))))%Z.
Proof.
  unfold tuple_ltb.
  destruct (Z.eqb_spec a1 a2) as [->|Ha]; cbn [negb].
  - destruct (Z.eqb_spec b1 b2) as [->|Hb]; cbn [negb].
    + destruct (eqb c1 c2) eqn:Hc; cbn [negb].
      * apply eqb_eq in Hc; subst c2. rewrite ltb_irrefl.
        split; [discriminate | intros [?|[_ [?|[_ ?]]]]; lia || discriminate].
      * split; [intros; right; split; [reflexivity|]; right; auto
               | intros [?|[_ [?|[_ ?]]]]; lia || assumption].
    + rewrite Z.ltb_lt. split; [lia | intros [?|[_ [?|[? _]]]]; lia].
  - rewrite Z.ltb_lt. split; [lia | intros [?|[? _]]; lia].
Qed.

Lemma tuple_ltb_false (a1 b1 a2 b2 : Z) (c1 c2 : str) :
  tuple_ltb (a1, b1, c1) (a2, b2, c2) = false <->
  (a2 < a1 \/ (a1 = a2 /\ (b2 < b1 \/ (b1 = b2 /\ ltb c1 c2 = false))))%Z.
Proof.
  pose proof (tuple_ltb_true a1 b1 a2 b2 c1 c2) as H.
  destruct (tuple_ltb (a1, b1, c1) (a2, b2, c2)).
  - assert (a1 < a2 \/ (a1 = a2 /\ (b1 < b2 \/ (b1 = b2 /\ ltb c1 c2 = true))))%Z
      as Ht by (apply H; reflexivity).
    split; [discriminate|]. intros Hf; exfalso.
    destruct (ltb c1 c2); intuition (lia || discriminate).
  - assert (~ (a1 < a2 \/ (a1 = a2 /\ (b1 < b2 \/ (b1 = b2 /\ ltb c1 c2 = true)))))%Z
      as Hn by (rewrite <- H; discriminate).
    split; [intros _ | reflexivity].
    destruct (ltb c1 c2).
    + assert (a2 < a1 \/ (a1 = a2 /\ b2 < b1))%Z by lia. tauto.
    + assert (a2 < a1 \/ (a1 = a2 /\ (b2 < b1 \/ b1 = b2)))%Z by lia. tauto.
Qed.

Lemma tuple_ltb_asym (x y : sort_key_t) :
  tuple_ltb x y = true -> tuple_ltb y x = false.
Proof.
  destruct x as [[a1 b1] c1], y as [[a2 b2] c2].
  rewrite tuple_ltb_true, tuple_ltb_false.
  intros [?|[-> [?|[-> Hc]]]]; [lia | right; split; [reflexivity|lia] |].
  right; split; [reflexivity|]. right; split; [reflexivity|].
  apply ltb_asym; exact Hc.
Qed.

Lemma tuple_le_trans (x y z : sort_key_t) :
  tuple_ltb y x = false -> tuple_ltb z y = false -> tuple_ltb z x = false.
Proof.
  destruct x as [[a1 b1] c1], y as [[a2 b2] c2], z as [[a3 b3] c3].
  rewrite !tuple_ltb_false.
  intros [?|[-> [?|[-> Hc]]]] [?|[-> [?|[-> Hc']]]];
    try (left; lia); try (right; split; [reflexivity|left; lia]).
  right; split; [reflexivity|]. right; split; [reflexivity|].
  eapply ltb_le_trans; eauto.
Qed.

(** *** The display order, in the words of the specification *)

(** The canonical roles. *)
Inductive canonical : Type :=
| Inbox | Drafts | Sent | Archive | Spam | Junk | Trash.

Definition canonical_name (c : canonical) : str :=
  match c with
  | Inbox => lit "inbox"
  | Drafts => lit "drafts"
  | Sent => lit "sent"
  | Archive => lit "archive"
  | Spam => lit "spam"
  | Junk => lit "junk"
  | Trash => lit "trash"
  end.

(** inbox, drafts, sent, archive, then spam and junk together, then
    trash. *)
Definition canonical_rank (c : canonical) : Z :=
  match c with
  | Inbox => 0
  | Drafts => 1
  | Sent => 2
  | Archive => 3
  | Spam | Junk => 4
  | Trash => 5
  end.

(** The rank of a role that is none of the canonical ones. *)
Definition other_rank : Z := 99.

Lemma canonical_below_other (c : canonical) :
  (canonical_rank c < other_rank)%Z.
Proof. destruct c; reflexivity. Qed.

(** Tier 0: the mailbox has a role; Tier 1: it has none ([None], or the
    empty string, which [if m.role] takes for none). *)
Definition has_role (m : Mailbox) : Prop :=
  exists r, role m = Some r /\ r <> [].

Definition no_role (m : Mailbox) : Prop :=
  role m = None \/ role m = Some [].

Lemma role_cases (m : Mailbox) : has_role m \/ no_role m.
Proof.
  unfold has_role, no_role. destruct (role m) as [[|c r]|]; auto.
  left; exists (c :: r); split; [reflexivity | discriminate].
Qed.

Section Order.

Context {U : Unicode}.

(** The role rank of a Tier-0 mailbox, roles read case-insensitively. *)
Inductive role_rank (m : Mailbox) : Z -> Prop :=
| rank_canonical (r : str) (c : canonical) :
    role m = Some r -> r <> [] -> lower r = canonical_name c ->
    role_rank m (canonical_rank c)
| rank_other (r : str) :
    role m = Some r -> r <> [] ->
    (forall c, lower r <> canonical_name c) ->
    role_rank m other_rank.

(** The case-insensitive name of [a] is not after that of [b]. *)
Definition name_le (a b : Mailbox) : Prop :=
  ltb (lower (name b)) (lower (name a)) = false.

(** [a] may stand before [b] in the display order. *)
Inductive display_le (a b : Mailbox) : Prop :=
| le_tier : has_role a -> no_role b -> display_le a b
| le_rank (ra rb : Z) :
    role_rank a ra -> role_rank b rb -> (ra < rb)%Z -> display_le a b
| le_rank_name (k : Z) :
    role_rank a k -> role_rank b k -> name_le a b -> display_le a b
| le_order :
    no_role a -> no_role b -> (sort_order a < sort_order b)%Z ->
    display_le a b
| le_order_name :
    no_role a -> no_role b -> sort_order a = sort_order b ->
    name_le a b -> display_le a b.

Lemma dict_get_missing {V : Type} (d : list (str * V)) (k : str) (default : V) :
  (forall v, ~ In (k, v) d) -> dict_get d k default = default.
Proof.
  induction d as [|[k' v'] d IH]; intros Hn; [reflexivity|].
  cbn [dict_get]. destruct (eqb k' k) eqn:E.
  - apply eqb_eq in E; subst k'. destruct (Hn v'); left; reflexivity.
  - apply IH. intros v Hin; apply (Hn v); right; exact Hin.
Qed.

(** The dictionary [role_order] holds the canonical names with their
    ranks. *)
Lemma role_order_items (k : str) (v : Z) :
  In (k, v) role_order <->
  exists c, k = canonical_name c /\ v = canonical_rank c.
Proof.
  split.
  - unfold role_order. cbn [In].
    intros [H|[H|[H|[H|[H|[H|[H|[]]]]]]]]; injection H as <- <-;
      [exists Inbox | exists Drafts | exists Sent | exists Archive
      | exists Spam | exists Junk | exists Trash]; split; reflexivity.
  - intros [c [-> ->]]. destruct c; cbn; tauto.
Qed.

Lemma role_order_get_canonical (c : canonical) :
  dict_get role_order (canonical_name c) 99%Z = canonical_rank c.
Proof. destruct c; reflexivity. Qed.

Lemma role_order_get_other (k : str) :
  (forall c, k <> canonical_name c) -> dict_get role_order k 99%Z = other_rank.
Proof.
  intros Hk. apply dict_get_missing. intros v Hin.
  apply role_order_items in Hin. destruct Hin as [c [-> _]].
  apply (Hk c); reflexivity.
Qed.

(** The rank the sort key carries is the role rank. *)
Lemma role_rank_key (m : Mailbox) (r : str) (k : Z) :
  role m = Some r -> r <> [] ->
  (role_rank m k <-> k = dict_get role_order (lower r) 99%Z).
Proof.
  intros Hr Hne. split.
  - intros [r' c Hr' _ Hc | r' Hr' _ Hc]; rewrite Hr in Hr';
      injection Hr' as <-.
    + rewrite Hc. symmetry; apply role_order_get_canonical.
    + symmetry; apply role_order_get_other; exact Hc.
  - intros ->.
    destruct (List.existsb (fun kv => eqb (fst kv) (lower r)) role_order) eqn:E.
    + apply existsb_exists in E. destruct E as [[k v] [Hin Hk]].
      apply eqb_eq in Hk; cbn [fst] in Hk; subst k.
      apply role_order_items in Hin. destruct Hin as [c [Hc ->]].
      rewrite Hc, role_order_get_canonical.
      eapply rank_canonical; eauto.
    + rewrite role_order_get_other.
      * eapply rank_other; eauto.
        intros c Hc. apply not_true_iff_false in E. apply E.
        apply existsb_exists. exists (canonical_name c, canonical_rank c).
        split; [apply role_order_items; eauto|].
        cbn [fst]. rewrite Hc. apply eqb_refl.
      * intros c Hc. apply not_true_iff_false in E. apply E.
        apply existsb_exists. exists (canonical_name c, canonical_rank c).
        split; [apply role_order_items; eauto|].
        cbn [fst]. rewrite Hc. apply eqb_refl.
Qed.

Lemma role_rank_has_role (m : Mailbox) (k : Z) :
  role_rank m k -> has_role m.
Proof. intros [r c H Hne _ | r H Hne _]; exists r; auto. Qed.

Lemma sort_key_has_role (m : Mailbox) (r : str) :
  role m = Some r -> r <> [] ->
  sort_key m = (0%Z, dict_get role_order (lower r) 99%Z, lower (name m)).
Proof.
  intros Hr Hne. unfold sort_key. rewrite Hr.
  destruct r; [congruence | reflexivity].
Qed.

Lemma sort_key_no_role (m : Mailbox) :
  no_role m -> sort_key m = (1%Z, sort_order m, lower (name m)).
Proof. intros [H|H]; unfold sort_key; rewrite H; reflexivity. Qed.

(** The order of the sort keys is the display order. *)
Lemma key_le_display_le (a b : Mailbox) :
  key_le sort_key tuple_ltb a b <-> display_le a b.
Proof.
  unfold key_le. split.
  - intros H.
    destruct (role_cases a) as [[ra [Ea Ha]]|Na],
             (role_cases b) as [[rb [Eb Hb]]|Nb].
    + rewrite (sort_key_has_role _ _ Ea Ha), (sort_key_has_role _ _ Eb Hb) in H.
      apply tuple_ltb_false in H.
      destruct H as [H|[_ [H|[H Hn]]]]; [lia | |].
      * eapply le_rank; [| |exact H]; eapply role_rank_key; eauto.
      * eapply le_rank_name; [| |exact Hn].
        -- eapply role_rank_key; eauto.
        -- eapply role_rank_key; eauto.
    + apply le_tier; [exists ra; auto | exact Nb].
    + rewrite (sort_key_no_role _ Na), (sort_key_has_role _ _ Eb Hb) in H.
      apply tuple_ltb_false in H. destruct H as [H|[H _]]; lia.
    + rewrite (sort_key_no_role _ Na), (sort_key_no_role _ Nb) in H.
      apply tuple_ltb_false in H.
      destruct H as [H|[_ [H|[H Hn]]]]; [lia | |].
      * apply le_order; assumption.
      * apply le_order_name; auto.
  - intros [Ha Nb | ka kb Ka Kb Hlt | k Ka Kb Hn | Na Nb Hlt | Na Nb He Hn].
    + destruct Ha as [ra [Ea Ha]].
      rewrite (sort_key_has_role _ _ Ea Ha), (sort_key_no_role _ Nb).
      apply tuple_ltb_false. left; lia.
    + destruct (role_rank_has_role _ _ Ka) as [ra [Ea Ha]],
               (role_rank_has_role _ _ Kb) as [rb [Eb Hb]].
      rewrite (sort_key_has_role _ _ Ea Ha), (sort_key_has_role _ _ Eb Hb).
      apply (role_rank_key _ _ _ Ea Ha) in Ka.
      apply (role_rank_key _ _ _ Eb Hb) in Kb. subst ka kb.
      apply tuple_ltb_false. right; split; [reflexivity|]. left; exact Hlt.
    + destruct (role_rank_has_role _ _ Ka) as [ra [Ea Ha]],
               (role_rank_has_role _ _ Kb) as [rb [Eb Hb]].
      rewrite (sort_key_has_role _ _ Ea Ha), (sort_key_has_role _ _ Eb Hb).
      apply (role_rank_key _ _ _ Ea Ha) in Ka.
      apply (role_rank_key _ _ _ Eb Hb) in Kb.
      apply tuple_ltb_false. right; split; [reflexivity|].
      right; split; [congruence | exact Hn].
    + rewrite (sort_key_no_role _ Na), (sort_key_no_role _ Nb).
      apply tuple_ltb_false. right; split; [reflexivity|]. left; exact Hlt.
    + rewrite (sort_key_no_role _ Na), (sort_key_no_role _ Nb).
      apply tuple_ltb_false. right; split; [reflexivity|].
      right; split; [congruence | exact Hn].
Qed.

(** C3.  [sort_mailboxes] returns the mailboxes it was given, arranged
    in the two-tier display order: every mailbox that has a role
    before every mailbox that has none; among the first by role rank
    (inbox, drafts, sent, archive, spam and junk together, trash, any
    other role after all of these), then by case-insensitive name;
    among the second by [sort_order], then by case-insensitive name.
    Mailboxes that the order does not separate keep their input
    order. *)
Theorem sort_mailboxes_display_order (mailboxes : list Mailbox) :
  Permutation (sort_mailboxes mailboxes) mailboxes
  /\ StronglySorted display_le (sort_mailboxes mailboxes)
  /\ (forall p : Mailbox -> bool,
        tied sort_key tuple_ltb p ->
        List.filter p (sort_mailboxes mailboxes) = List.filter p mailboxes).
Proof.
  unfold sort_mailboxes. split; [apply sorted_by_key_perm|]. split.
  - eapply StronglySorted_impl; [intros a b; apply key_le_display_le|].
    apply sorted_by_key_sorted; [apply tuple_ltb_asym | apply tuple_le_trans].
  - intros p Hp. apply sorted_by_key_stable; exact Hp.
Qed.

(** X13.  Sorting a sorted list of mailboxes returns it unchanged:
    [sort_mailboxes (sort_mailboxes l) = sort_mailboxes l] for every list
    of mailboxes. *)
Lemma sort_mailboxes_idempotent (mailboxes : list Mailbox) :
  sort_mailboxes (sort_mailboxes mailboxes) = sort_mailboxes mailboxes.
Proof.
  apply sorted_by_key_idempotent; [apply tuple_ltb_asym | apply tuple_le_trans].
Qed.

(** [a] occurs in [l] somewhere before [b]. *)
Definition before (l : list Mailbox) (a b : Mailbox) : Prop :=
  exists l1 l2 l3, l = l1 ++ a :: l2 ++ b :: l3.

Lemma sort_mailboxes_before (mailboxes : list Mailbox) (a b : Mailbox) :
  In a mailboxes -> In b mailboxes ->
  tuple_ltb (sort_key a) (sort_key b) = true ->
  before (sort_mailboxes mailboxes) a b.
Proof.
  intros Ha Hb Hlt. unfold before, sort_mailboxes.
  apply (sorted_strict_before _ _ sort_key tuple_ltb tuple_ltb_asym);
    [ apply sorted_by_key_sorted; [apply tuple_ltb_asym | apply tuple_le_trans]
    | | | exact Hlt ];
    (eapply Permutation_in; [symmetry; apply sorted_by_key_perm | assumption]).
Qed.

(** C2, as the code has it.  A mailbox whose role is a non-empty string
    that is not, case-insensitively, one of the canonical role names
    is not ordered as if it had no role: its key is [(0, 99, name)],
    so that [sort_mailboxes] puts it after every mailbox with a
    canonical role and before every mailbox without a role. *)
Theorem sort_mailboxes_unrecognized_role
    (mailboxes : list Mailbox) (m : Mailbox) (r : str) :
  In m mailboxes ->
  role m = Some r -> r <> [] -> (forall c, lower r <> canonical_name c) ->
  sort_key m = (0%Z, other_rank, lower (name m))
  /\ role_rank m other_rank
  /\ (forall m', In m' mailboxes -> no_role m' ->
        before (sort_mailboxes mailboxes) m m')
  /\ (forall m' r' c, In m' mailboxes ->
        role m' = Some r' -> r' <> [] -> lower r' = canonical_name c ->
        before (sort_mailboxes mailboxes) m' m).
Proof.
  intros Hin Hr Hne Hother.
  assert (sort_key m = (0%Z, other_rank, lower (name m))) as Hkey
    by (rewrite (sort_key_has_role _ _ Hr Hne), role_order_get_other; auto).
  split; [exact Hkey|]. split; [eapply rank_other; eauto|]. split.
  - intros m' Hin' Hno. apply sort_mailboxes_before; try assumption.
    rewrite Hkey, (sort_key_no_role _ Hno). apply tuple_ltb_true. left; lia.
  - intros m' r' c Hin' Hr' Hne' Hc. apply sort_mailboxes_before; try assumption.
    rewrite Hkey, (sort_key_has_role _ _ Hr' Hne'), Hc, role_order_get_canonical.
    apply tuple_ltb_true. right; split; [reflexivity|]. left.
    apply canonical_below_other.
Qed.

End Order.

(** *** Concrete mailboxes, with ASCII names and roles *)

Definition mailbox (id name : string) (role : option string) (sort_order : Z)
    : Mailbox :=
  {| id := lit id;
     name := lit name;
     role := option_map lit role;
     parent_id := None;
     sort_order := sort_order;
     total_emails := 0;
     unread_emails := 0;
     total_threads := 0;
     unread_threads := 0;
     is_subscribed := true |}.

(** The mailbox with its role taken away. *)
Definition without_role (m : Mailbox) : Mailbox :=
  {| id := id m;
     name := name m;
     role := None;
     parent_id := parent_id m;
     sort_order := sort_order m;
     total_emails := total_emails m;
     unread_emails := unread_emails m;
     total_threads := total_threads m;
     unread_threads := unread_threads m;
     is_subscribed := is_subscribed m |}.

Definition notes : Mailbox := mailbox "m1" "Notes" None 0.
Definition followup : Mailbox := mailbox "m2" "Pending" (Some "followup"%string) 0.
Definition inbox : Mailbox := mailbox "m3" "Inbox" (Some "inbox"%string) 0.

Lemma followup_not_canonical (c : canonical) :
  @lower AsciiTables.tables (lit "followup") <> canonical_name c.
Proof. destruct c; discriminate. Qed.

Definition three_mailboxes : list Mailbox := [notes; followup; inbox].

Lemma sort_mailboxes_unrecognized_role_witness :
  In followup three_mailboxes
  /\ role followup = Some (lit "followup")
  /\ lit "followup" <> []
  /\ (forall c, @lower AsciiTables.tables (lit "followup") <> canonical_name c)
  /\ (@sort_key AsciiTables.tables followup
        = (0%Z, other_rank, @lower AsciiTables.tables (name followup))
      /\ @role_rank AsciiTables.tables followup other_rank
      /\ (forall m', In m' three_mailboxes -> no_role m' ->
            before (@sort_mailboxes AsciiTables.tables three_mailboxes) followup m')
      /\ (forall m' r' c, In m' three_mailboxes ->
            role m' = Some r' -> r' <> [] ->
            @lower AsciiTables.tables r' = canonical_name c ->
            before (@sort_mailboxes AsciiTables.tables three_mailboxes) m' followup)).
Proof.
  assert (In followup three_mailboxes) as Hin by (right; left; reflexivity).
  assert (lit "followup" <> []) as Hne by discriminate.
  split; [exact Hin|]. split; [reflexivity|]. split; [exact Hne|].
  split; [exact followup_not_canonical|].
  apply (@sort_mailboxes_unrecognized_role AsciiTables.tables
           three_mailboxes followup (lit "followup") Hin eq_refl Hne
           followup_not_canonical).
Defined.

(** C2 fails as stated: the mailbox with the role [followup], which is
    none of the canonical ones, is put before the mailbox without a
    role, while with its role taken away it would come after it (equal
    [sort_order], name [Pending] after [Notes]).  So a role outside the
    canonical ones is not ordered as an absent one. *)
Lemma sort_mailboxes_unrecognized_role_not_absent :
  role followup = Some (lit "followup")
  /\ (forall c, @lower AsciiTables.tables (lit "followup") <> canonical_name c)
  /\ @sort_mailboxes AsciiTables.tables [notes; followup] = [followup; notes]
  /\ @sort_mailboxes AsciiTables.tables [notes; without_role followup]
     = [notes; without_role followup]
  /\ ~ (forall (m : Mailbox) (r : str),
          role m = Some r ->
          (forall c, @lower AsciiTables.tables r <> canonical_name c) ->
          @sort_key AsciiTables.tables m
          = @sort_key AsciiTables.tables (without_role m)).
Proof.
  split; [reflexivity|]. split; [exact followup_not_canonical|].
  split; [vm_compute; reflexivity|]. split; [vm_compute; reflexivity|].
  intros H.
  specialize (H followup (lit "followup") eq_refl followup_not_canonical).
  vm_compute in H. discriminate.
Qed.

(** The orderings the specification lists. *)
Example sort_mailboxes_roles :
  List.map name
    (@sort_mailboxes AsciiTables.tables
       [ mailbox "1" "T" (Some "trash"%string) 0; mailbox "2" "I" (Some "inbox"%string) 0;
         mailbox "3" "A" (Some "archive"%string) 0 ])
  = [lit "I"; lit "A"; lit "T"].
Proof. vm_compute; reflexivity. Qed.

Example sort_mailboxes_spam_junk :
  List.map name
    (@sort_mailboxes AsciiTables.tables
       [ mailbox "1" "Trash" (Some "trash"%string) 0; mailbox "2" "Spam" (Some "spam"%string) 0;
         mailbox "3" "Junk" (Some "JUNK"%string) 0; mailbox "4" "Archive" (Some "archive"%string) 0 ])
  = [lit "Archive"; lit "Junk"; lit "Spam"; lit "Trash"].
Proof. vm_compute; reflexivity. Qed.

Example sort_mailboxes_folders :
  List.map name
    (@sort_mailboxes AsciiTables.tables
       [ mailbox "1" "Projects" None 2; mailbox "2" "Archive2" None 1 ])
  = [lit "Archive2"; lit "Projects"].
Proof. vm_compute; reflexivity. Qed.

End MailboxFacts.

(** ** Search scoring and ranking *)

Module SearchFacts.

Import EmailModel SearchModal PyStrFacts.

(** [q] occurs in [s]. *)
Definition Occurs (q s : str) : Prop := exists pre post, s = pre ++ q ++ post.

(** [w] if [b] holds, nothing otherwise. *)
Definition weight (b : bool) (w : Z) : Z := if b then w else 0%Z.

Section ScoringFacts.

Context {U : Unicode}.

(** C4.  For every query (the caller passes a non-empty lower-cased
    one) and every email, the score is the sum of 100 if the
    lower-cased subject contains the query and 50 more if it starts
    with it, 80 if the lower-cased sender display name contains it and
    40 more if it starts with it, 60 if the lower-cased sender address
    contains it, and 30 if the lower-cased preview contains it; so the
    score is never negative, and is 0 exactly when the query occurs in
    none of the four fields. *)
Theorem calculate_score_sum (query : str) (email : Email) :
  let subject_lower := lower (subject email) in
  let from_lower := lower (from_display email) in
  let from_email_lower := lower (from_email email) in
  let preview_lower := lower (preview email) in
  _calculate_score query email
  = (weight (contains query subject_lower) 100
     + weight (startswith subject_lower query) 50
     + weight (contains query from_lower) 80
     + weight (startswith from_lower query) 40
     + weight (contains query from_email_lower) 60
     + weight (contains query preview_lower) 30)%Z
  /\ (0 <= _calculate_score query email)%Z
  /\ (_calculate_score query email = 0%Z <->
      ~ Occurs query subject_lower /\ ~ Occurs query from_lower
      /\ ~ Occurs query from_email_lower /\ ~ Occurs query preview_lower).
Proof.
  cbv zeta. unfold Occurs. rewrite <- !contains_spec.
  unfold _calculate_score, weight.
  pose proof (startswith_contains (lower (subject email)) query) as Hs.
  pose proof (startswith_contains (lower (from_display email)) query) as Hf.
  destruct (contains query (lower (subject email))),
    (startswith (lower (subject email)) query),
    (contains query (lower (from_display email))),
    (startswith (lower (from_display email)) query),
    (contains query (lower (from_email email))),
    (contains query (lower (preview email)));
    try (discriminate (Hs eq_refl)); try (discriminate (Hf eq_refl));
    cbn; (split; [reflexivity | split; [lia|]]);
    (split; [intros ?; try discriminate; repeat split; discriminate
            | intros (? & ? & ? & ?); try reflexivity; exfalso; auto]).
Qed.

(** C10.  On the empty query the score of every email is 360: the
    empty string occurs in and begins every field, so each of the
    amounts 100, 50, 80, 40, 60 and 30 is added. *)
Theorem calculate_score_empty_query (email : Email) :
  _calculate_score [] email = 360%Z.
Proof.
  unfold _calculate_score. rewrite !contains_nil, !startswith_nil.
  reflexivity.
Qed.

(** *** Ranking *)

(** The sort of line 118: a higher score is a smaller key. *)
Definition higher (a b : Z) : bool := Z.ltb b a.

Lemma higher_asym (a b : Z) : higher a b = true -> higher b a = false.
Proof. unfold higher. rewrite Z.ltb_lt, Z.ltb_ge. lia. Qed.

Lemma higher_le_trans (a b c : Z) :
  higher b a = false -> higher c b = false -> higher c a = false.
Proof. unfold higher. rewrite !Z.ltb_ge. lia. Qed.

Definition matches (query : str) (emails : list Email) : list Email :=
  List.filter (fun e => (0 <? _calculate_score query e)%Z) emails.

Lemma scored_matches_filter (query : str) (emails : list Email) :
  scored_matches query emails
  = List.map (fun e => (_calculate_score query e, e)) (matches query emails).
Proof.
  unfold matches. induction emails as [|e emails IH]; [reflexivity|].
  cbn [scored_matches List.filter].
  destruct (0 <? _calculate_score query e)%Z; cbn [List.map]; rewrite IH;
    reflexivity.
Qed.

(** The matching emails, best first, before the cut at [limit]. *)
Definition ranked (query : str) (emails : list Email) : list Email :=
  sorted_by_key (_calculate_score query) higher (matches query emails).

Lemma rank_firstn (query : str) (emails : list Email) (limit : nat) :
  rank query emails limit = List.firstn limit (ranked query emails).
Proof.
  unfold rank, ranked. rewrite scored_matches_filter.
  change (fun a b : Z => Z.ltb b a) with higher.
  rewrite sorted_by_key_decorate, <- firstn_map, map_map.
  cbn [snd]. rewrite map_id. reflexivity.
Qed.

Lemma firstn_incl {A : Type} (n : nat) (l : list A) (x : A) :
  In x (List.firstn n l) -> In x l.
Proof.
  intros H. rewrite <- (firstn_skipn n l). apply in_or_app; left; exact H.
Qed.

(** C5.  For every non-empty query, every email list and every limit,
    the ranking is the first [limit] elements of a list that holds
    exactly the emails of positive score, is ordered by score from
    high to low, and keeps emails of equal score in their input
    order.  It has at most [limit] elements, none of score 0.  The
    search modal computes it with the limit 50. *)
Theorem rank_spec (query : str) (emails : list Email) (limit : nat) :
  query <> [] ->
  let score := _calculate_score query in
  rank query emails limit = List.firstn limit (ranked query emails)
  /\ Permutation (ranked query emails)
                 (List.filter (fun e => (0 <? score e)%Z) emails)
  /\ StronglySorted (fun a b => (score b <= score a)%Z) (ranked query emails)
  /\ (forall s, (0 < s)%Z ->
        List.filter (fun e => (score e =? s)%Z) (ranked query emails)
        = List.filter (fun e => (score e =? s)%Z) emails)
  /\ List.length (rank query emails limit) <= limit
  /\ Forall (fun e => In e emails /\ (0 < score e)%Z) (rank query emails limit)
  /\ (forall value, lower (strip value) = query ->
        on_input_changed emails value = rank query emails 50).
Proof.
  intros Hq. cbv zeta.
  assert (Permutation (ranked query emails) (matches query emails)) as Hperm
    by apply sorted_by_key_perm.
  split; [apply rank_firstn|]. split; [exact Hperm|]. split.
  { eapply StronglySorted_impl;
      [|apply (sorted_by_key_sorted _ _ (_calculate_score query) higher
                 higher_asym higher_le_trans)].
    intros a b. unfold key_le, higher. rewrite Z.ltb_ge. auto. }
  split.
  { intros s Hs. unfold ranked. rewrite sorted_by_key_stable.
    - unfold matches. clear Hperm.
      induction emails as [|e emails IH]; [reflexivity|].
      cbn [List.filter].
      destruct (Z.ltb_spec 0 (_calculate_score query e));
        cbn [List.filter];
        destruct (Z.eqb_spec (_calculate_score query e) s);
        try rewrite IH; try reflexivity; lia.
    - intros a b Ha Hb. apply Z.eqb_eq in Ha, Hb. unfold higher.
      rewrite Z.ltb_ge. lia. }
  split; [rewrite rank_firstn; apply firstn_le_length|]. split.
  { rewrite rank_firstn. apply Forall_forall. intros e He.
    apply firstn_incl in He.
    apply (Permutation_in _ Hperm) in He. unfold matches in He.
    apply filter_In in He. rewrite Z.ltb_lt in He. exact He. }
  intros value Hv. unfold on_input_changed. rewrite Hv.
  destruct query; [congruence | reflexivity].
Qed.

End ScoringFacts.

(** *** Concrete emails, in ASCII *)

Definition message (id subject preview sender : string) : Email :=
  {| id := lit id;
     thread_id := lit id;
     subject := lit subject;
     preview := lit preview;
     from_addresses := [ {| email := lit sender; name := None |} ] |}.

Definition reminder : Email :=
  message "e1" "Reminder" "your invoice is attached" "ann@example.com".
Definition invoice42 : Email :=
  message "e2" "Invoice #42" "see below" "billing@example.com".
Definition lunch : Email :=
  message "e3" "Lunch?" "noon at the usual place" "bob@example.com".

Definition loaded : list Email := [reminder; lunch; invoice42].

(** A subject that starts with the query scores 150, a preview that
    contains it 30; the email matching nowhere is dropped. *)
Example rank_invoice :
  List.map (@_calculate_score AsciiTables.tables (lit "invoice")) loaded
    = [30%Z; 0%Z; 150%Z]
  /\ @rank AsciiTables.tables (lit "invoice") loaded 50 = [invoice42; reminder]
  /\ @on_input_changed AsciiTables.tables loaded (lit "  Invoice ")
     = [invoice42; reminder].
Proof. repeat split; vm_compute; reflexivity. Qed.

Lemma rank_spec_witness :
  lit "invoice" <> []
  /\ List.length (@rank AsciiTables.tables (lit "invoice") loaded 1) <= 1
  /\ Forall (fun e => In e loaded
                      /\ (0 < @_calculate_score AsciiTables.tables (lit "invoice") e)%Z)
       (@rank AsciiTables.tables (lit "invoice") loaded 1).
Proof.
  assert (lit "invoice" <> []) as Hq by discriminate.
  split; [exact Hq|].
  destruct (@rank_spec AsciiTables.tables (lit "invoice") loaded 1 Hq)
    as (_ & _ & _ & _ & Hlen & Hpos & _).
  split; [exact Hlen | exact Hpos].
Defined.

End SearchFacts.

(** ** Generated passwords and their strength *)

Module GeneratedPasswords.

Import Secrets SecretsFacts PasswordGenerator PyStrFacts PasswordGeneratorFacts.

(** [c] is one of the characters of [s]. *)
Definition mem (c : char) (s : str) : bool := List.existsb (N.eqb c) s.

Lemma mem_In (c : char) (s : str) : mem c s = true <-> In c s.
Proof.
  unfold mem. rewrite existsb_exists. split.
  - intros [x [Hx E]]. apply N.eqb_eq in E. subst x. exact Hx.
  - intros H. exists c. split; [exact H | apply N.eqb_refl].
Qed.

Lemma mem_false (c : char) (s : str) : mem c s = false <-> ~ In c s.
Proof.
  rewrite <- mem_In. destruct (mem c s); split; congruence.
Qed.

(** A property of characters checked on a whole set. *)
Lemma forallb_In (p : char -> bool) (s : str) (c : char) :
  List.forallb p s = true -> In c s -> p c = true.
Proof. intros H Hc. rewrite forallb_forall in H. auto. Qed.

(** Without the symbol class the effective set has no symbol, on the
    fallback branch too. *)
Lemma effective_chars_no_symbols (options : PasswordOptions) (c : char) :
  include_symbols options = false ->
  In c (effective_chars options) -> ~ In c symbol_chars.
Proof.
  intros Hs Hc. apply mem_false, negb_true_iff.
  destruct options as [len up lo di sy ex]. cbn in Hs. subst sy.
  revert Hc. apply (forallb_In (fun c => negb (mem c symbol_chars))).
  destruct up, lo, di, ex; vm_compute; reflexivity.
Qed.

(** X1.  With [include_symbols] off, [generate_password] never returns
    one of the symbol characters, whatever the other options, the length
    and the entropy source: the fallback set holds none either. *)
Theorem generate_password_no_symbols (options : PasswordOptions) (g : rng) :
  include_symbols options = false ->
  exists pw g',
    generate_password (Some options) g = (Ok pw, g')
    /\ Forall (fun c => ~ In c symbol_chars) pw.
Proof.
  intros Hs.
  destruct (generate_password_ok options g) as [pw [E [_ Hall]]].
  exists pw, (advance (range_len (length options)) g). split; [exact E|].
  eapply Forall_impl; [|exact Hall].
  intros c; apply effective_chars_no_symbols; exact Hs.
Qed.

Definition no_symbols_20 : PasswordOptions := {|
  length := 20;
  include_uppercase := true;
  include_lowercase := true;
  include_digits := true;
  include_symbols := false;
  exclude_ambiguous := true
|}.

Lemma generate_password_no_symbols_witness :
  include_symbols no_symbols_20 = false
  /\ exists pw g',
       generate_password (Some no_symbols_20) zero_tape = (Ok pw, g')
       /\ Forall (fun c => ~ In c symbol_chars) pw.
Proof.
  split; [reflexivity|].
  apply (generate_password_no_symbols no_symbols_20 zero_tape). reflexivity.
Defined.

(** The character [c] belongs to a class that [options] enables. *)
Definition in_enabled_class (options : PasswordOptions) (c : char) : Prop :=
  (include_lowercase options = true /\ In c ascii_lowercase)
  \/ (include_uppercase options = true /\ In c ascii_uppercase)
  \/ (include_digits options = true /\ In c digits)
  \/ (include_symbols options = true /\ In c symbol_chars).

Lemma class_chars_enabled (options : PasswordOptions) (c : char) :
  In c (class_chars options) -> in_enabled_class options c.
Proof.
  unfold class_chars, in_enabled_class.
  destruct (include_lowercase options), (include_uppercase options),
    (include_digits options), (include_symbols options);
    cbn [app]; rewrite ?in_app_iff; cbn [In]; intuition.
Qed.

(** X2.  With at least one class enabled, every character that
    [generate_password] returns belongs to an enabled class, and is not
    ambiguous when [exclude_ambiguous] is set: no character of a disabled
    class is ever produced. *)
Theorem generate_password_enabled_classes (options : PasswordOptions) (g : rng) :
  ~ no_class options ->
  exists pw g',
    generate_password (Some options) g = (Ok pw, g')
    /\ Forall (fun c => in_enabled_class options c
                        /\ (exclude_ambiguous options = true ->
                            ~ In c AMBIGUOUS_CHARS)) pw.
Proof.
  intros Hcls.
  destruct (generate_password_ok options g) as [pw [E [_ Hall]]].
  exists pw, (advance (range_len (length options)) g). split; [exact E|].
  eapply Forall_impl; [|exact Hall].
  intros c Hc. unfold effective_chars, or_fallback in Hc.
  destruct (remove_ambiguous options (class_chars options)) as [|d t] eqn:Er.
  - exfalso. apply Hcls, fallback_used_iff. unfold fallback_used.
    rewrite Er; reflexivity.
  - rewrite <- Er in Hc. apply remove_ambiguous_In in Hc.
    destruct Hc as [Hc Ha]. split; [apply class_chars_enabled; exact Hc | exact Ha].
Qed.

Lemma generate_password_enabled_classes_witness :
  ~ no_class letters_only
  /\ exists pw g',
       generate_password (Some letters_only) zero_tape = (Ok pw, g')
       /\ Forall (fun c => in_enabled_class letters_only c
                           /\ (exclude_ambiguous letters_only = true ->
                               ~ In c AMBIGUOUS_CHARS)) pw.
Proof.
  assert (~ no_class letters_only) as Hcls
    by (unfold no_class; simpl; intros [H _]; discriminate).
  split; [exact Hcls|].
  apply (generate_password_enabled_classes letters_only zero_tape). exact Hcls.
Defined.

(** X3.  A length of zero or less is not rejected: [generate_password]
    returns the empty string, without raising and without reading the
    entropy source. *)
Theorem generate_password_nonpositive_length (options : PasswordOptions) (g : rng) :
  (length options <= 0)%Z ->
  generate_password (Some options) g = (Ok [], g).
Proof.
  intros HL. unfold generate_password, range_len.
  replace (Z.to_nat (length options)) with 0 by lia.
  reflexivity.
Qed.

Definition negative_length : PasswordOptions := {|
  length := -5;
  include_uppercase := true;
  include_lowercase := true;
  include_digits := true;
  include_symbols := true;
  exclude_ambiguous := true
|}.

Lemma generate_password_nonpositive_length_witness :
  (length negative_length <= 0)%Z
  /\ generate_password (Some negative_length) zero_tape = (Ok [], zero_tape).
Proof.
  assert (length negative_length <= 0)%Z as HL by (simpl; lia).
  split; [exact HL|].
  apply (generate_password_nonpositive_length negative_length zero_tape HL).
Defined.

(** *** Strength of what the generator returns *)

Lemma effective_chars_classes (options : PasswordOptions) (c : char) :
  In c (effective_chars options) ->
  In c ascii_lowercase \/ In c ascii_uppercase \/ In c digits \/ In c symbol_chars.
Proof.
  intros Hc.
  assert (mem c ascii_lowercase || mem c ascii_uppercase || mem c digits
          || mem c symbol_chars = true) as H.
  { revert Hc.
    apply (forallb_In (fun c => mem c ascii_lowercase || mem c ascii_uppercase
                                || mem c digits || mem c symbol_chars)).
    destruct options as [len [] [] [] [] []]; vm_compute; reflexivity. }
  rewrite !orb_true_iff, !mem_In in H. tauto.
Qed.

Lemma symbol_chars_punctuation (c : char) :
  In c symbol_chars -> In c punctuation.
Proof.
  intros Hc. apply mem_In. revert Hc.
  apply (forallb_In (fun c => mem c punctuation)). vm_compute; reflexivity.
Qed.

Lemma length_points_mono (a b : Z) :
  (a <= b)%Z -> (length_points a <= length_points b)%Z.
Proof.
  intros H. unfold length_points, b2z.
  destruct (Z.leb_spec 8 a), (Z.leb_spec 12 a), (Z.leb_spec 16 a),
    (Z.leb_spec 24 a), (Z.leb_spec 8 b), (Z.leb_spec 12 b),
    (Z.leb_spec 16 b), (Z.leb_spec 24 b); lia.
Qed.

Lemma length_points_range (n : Z) : (0 <= length_points n <= 4)%Z.
Proof.
  unfold length_points, b2z.
  destruct (8 <=? n)%Z, (12 <=? n)%Z, (16 <=? n)%Z, (24 <=? n)%Z; lia.
Qed.

Lemma b2z_range (b : bool) : (0 <= b2z b <= 1)%Z.
Proof. destruct b; simpl; lia. Qed.

Lemma existsb_In_true (p : char -> bool) (s : str) (c : char) :
  In c s -> p c = true -> List.existsb p s = true.
Proof. intros Hc Hp. apply existsb_exists. eauto. Qed.

(** The interpreter's tables class the ASCII letters and digits as
    Python's do. *)
Definition classifies_ascii (U : Unicode) : Prop :=
  (forall c, In c ascii_lowercase -> islower c = true)
  /\ (forall c, In c ascii_uppercase -> isupper c = true)
  /\ (forall c, In c digits -> isdigit c = true).

Lemma ascii_tables_classify : classifies_ascii AsciiTables.tables.
Proof.
  repeat split; intros c Hc; revert Hc.
  - apply (forallb_In (@islower AsciiTables.tables)). vm_compute; reflexivity.
  - apply (forallb_In (@isupper AsciiTables.tables)). vm_compute; reflexivity.
  - apply (forallb_In (@isdigit AsciiTables.tables)). vm_compute; reflexivity.
Qed.

Section StrengthOfGenerated.

Context {U : Unicode}.

(** The number of classes [password_strength] finds. *)
Definition class_points (password : str) : Z :=
  let r := password_strength password in
  (b2z (has_lowercase r) + b2z (has_uppercase r) + b2z (has_digits r)
   + b2z (has_symbols r))%Z.

Lemma score_split (password : str) :
  score (password_strength password)
  = (length_points (Z.of_nat (List.length password)) + class_points password)%Z.
Proof.
  destruct (password_strength_fields password) as (_ & _ & _ & _ & _ & _ & H & _).
  cbv zeta in H. unfold class_points. rewrite H. lia.
Qed.

Lemma class_points_range (password : str) : (0 <= class_points password <= 4)%Z.
Proof.
  unfold class_points. cbv zeta.
  pose proof (b2z_range (has_lowercase (password_strength password))).
  pose proof (b2z_range (has_uppercase (password_strength password))).
  pose proof (b2z_range (has_digits (password_strength password))).
  pose proof (b2z_range (has_symbols (password_strength password))).
  lia.
Qed.

Lemma strength_rating (password : str) :
  strength (password_strength password)
  = fst (rating (score (password_strength password))).
Proof.
  destruct (password_strength_fields password) as (_ & _ & _ & _ & _ & _ & _ & H).
  cbv zeta in H. rewrite <- H. reflexivity.
Qed.

Lemma good_or_strong (password : str) :
  (5 <= score (password_strength password))%Z ->
  strength (password_strength password) = lit "good"
  \/ strength (password_strength password) = lit "strong".
Proof.
  intros H. rewrite strength_rating. unfold rating.
  destruct (Z.leb_spec 7 (score (password_strength password))); [right; reflexivity|].
  destruct (Z.leb_spec 5 (score (password_strength password))); [left; reflexivity|].
  lia.
Qed.

(** A character of one of the four ASCII classes gives a class point. *)
Lemma class_points_positive (password : str) (c : char) :
  classifies_ascii U ->
  In c password ->
  In c ascii_lowercase \/ In c ascii_uppercase \/ In c digits \/ In c punctuation ->
  (1 <= class_points password)%Z.
Proof.
  intros (Hlo & Hup & Hdi) Hc Hclass.
  destruct (password_strength_fields password) as (El & Eu & Ed & Es & _).
  cbv zeta in *. unfold class_points. cbv zeta. rewrite El, Eu, Ed, Es.
  pose proof (b2z_range (List.existsb islower password)).
  pose proof (b2z_range (List.existsb isupper password)).
  pose proof (b2z_range (List.existsb isdigit password)).
  pose proof (b2z_range (List.existsb (fun c => contains [c] punctuation) password)).
  destruct Hclass as [H'|[H'|[H'|H']]].
  - rewrite (existsb_In_true islower _ c Hc (Hlo c H')).
    change (b2z true) with 1%Z. lia.
  - rewrite (existsb_In_true isupper _ c Hc (Hup c H')).
    change (b2z true) with 1%Z. lia.
  - rewrite (existsb_In_true isdigit _ c Hc (Hdi c H')).
    change (b2z true) with 1%Z. lia.
  - apply contains_single in H'.
    rewrite (existsb_In_true (fun c => contains [c] punctuation) _ c Hc H').
    change (b2z true) with 1%Z. lia.
Qed.

(** X4.  Whatever the options (length at least 1) and the entropy source,
    the password [generate_password] returns is rated with one point for
    every length threshold the requested length reaches and at least one
    class point; from length 24 on the score is at least 5 and the rating
    [good] or [strong], which is what the repository's test
    [test_password_strength_strong] asserts. *)
Theorem generated_password_strength (options : PasswordOptions) (g : rng) :
  classifies_ascii U ->
  (1 <= length options)%Z ->
  exists pw g',
    generate_password (Some options) g = (Ok pw, g')
    /\ (length_points (length options) + 1
        <= score (password_strength pw))%Z
    /\ ((24 <= length options)%Z ->
        (5 <= score (password_strength pw))%Z
        /\ (strength (password_strength pw) = lit "good"
            \/ strength (password_strength pw) = lit "strong")).
Proof.
  intros HU HL.
  destruct (generate_password_ok options g) as [pw [E [Hlen Hall]]].
  exists pw, (advance (range_len (length options)) g). split; [exact E|].
  assert (Z.of_nat (List.length pw) = length options) as Hn
    by (rewrite Hlen; unfold range_len; lia).
  assert (length_points (length options) + 1 <= score (password_strength pw))%Z
    as Hscore.
  { rewrite score_split, Hn.
    destruct pw as [|c pw]; [simpl in Hn; lia|].
    inversion Hall as [|? ? Hc _]; subst.
    apply effective_chars_classes in Hc.
    assert (1 <= class_points (c :: pw))%Z; [|lia].
    apply (class_points_positive _ c HU); [left; reflexivity|].
    destruct Hc as [?|[?|[?|Hs]]]; auto.
    right; right; right. apply symbol_chars_punctuation; exact Hs. }
  split; [exact Hscore|]. intros H24.
  assert (length_points (length options) = 4)%Z as H4.
  { unfold length_points, b2z.
    destruct (Z.leb_spec 8 (length options)), (Z.leb_spec 12 (length options)),
      (Z.leb_spec 16 (length options)), (Z.leb_spec 24 (length options)); lia. }
  split; [lia | apply good_or_strong; lia].
Qed.

End StrengthOfGenerated.

Lemma generated_password_strength_witness :
  classifies_ascii AsciiTables.tables
  /\ (1 <= length default_options)%Z
  /\ exists pw g',
       generate_password (Some default_options) zero_tape = (Ok pw, g')
       /\ (length_points (length default_options) + 1
           <= score (@password_strength AsciiTables.tables pw))%Z
       /\ ((24 <= length default_options)%Z ->
           (5 <= score (@password_strength AsciiTables.tables pw))%Z
           /\ (strength (@password_strength AsciiTables.tables pw) = lit "good"
               \/ strength (@password_strength AsciiTables.tables pw) = lit "strong")).
Proof.
  assert (1 <= length default_options)%Z as HL by (simpl; lia).
  split; [exact ascii_tables_classify|]. split; [exact HL|].
  apply (@generated_password_strength AsciiTables.tables default_options zero_tape
           ascii_tables_classify HL).
Defined.

(** *** The rubric *)

Lemma b2z_orb_l (a b : bool) : (b2z a <= b2z (a || b))%Z.
Proof. destruct a, b; simpl; lia. Qed.

Lemma b2z_orb_r (a b : bool) : (b2z b <= b2z (a || b))%Z.
Proof. destruct a, b; simpl; lia. Qed.

Section Rubric.

Context {U : Unicode}.

Lemma class_points_app (p q : str) :
  (class_points p <= class_points (p ++ q))%Z
  /\ (class_points q <= class_points (p ++ q))%Z.
Proof.
  unfold class_points. cbv zeta.
  destruct (password_strength_fields p) as (Al & Au & Ad & As & _).
  destruct (password_strength_fields q) as (Bl & Bu & Bd & Bs & _).
  destruct (password_strength_fields (p ++ q)) as (Cl & Cu & Cd & Cs & _).
  cbv zeta in *.
  rewrite Al, Au, Ad, As, Bl, Bu, Bd, Bs, Cl, Cu, Cd, Cs, !existsb_app.
  split.
  - pose proof (b2z_orb_l (List.existsb islower p) (List.existsb islower q)).
    pose proof (b2z_orb_l (List.existsb isupper p) (List.existsb isupper q)).
    pose proof (b2z_orb_l (List.existsb isdigit p) (List.existsb isdigit q)).
    pose proof (b2z_orb_l (List.existsb (fun c => contains [c] punctuation) p)
                          (List.existsb (fun c => contains [c] punctuation) q)).
    lia.
  - pose proof (b2z_orb_r (List.existsb islower p) (List.existsb islower q)).
    pose proof (b2z_orb_r (List.existsb isupper p) (List.existsb isupper q)).
    pose proof (b2z_orb_r (List.existsb isdigit p) (List.existsb isdigit q)).
    pose proof (b2z_orb_r (List.existsb (fun c => contains [c] punctuation) p)
                          (List.existsb (fun c => contains [c] punctuation) q)).
    lia.
Qed.

(** X5.  Lengthening a password never lowers its score: the score of
    [p ++ q] is at least the score of [p] and at least the score of [q],
    for all strings [p] and [q]. *)
Theorem password_strength_append (p q : str) :
  (score (password_strength p) <= score (password_strength (p ++ q)))%Z
  /\ (score (password_strength q) <= score (password_strength (p ++ q)))%Z.
Proof.
  rewrite !score_split, length_app, Nat2Z.inj_add.
  destruct (class_points_app p q) as [Hp Hq].
  pose proof (length_points_mono (Z.of_nat (List.length p))
                (Z.of_nat (List.length p) + Z.of_nat (List.length q))) as Mp.
  pose proof (length_points_mono (Z.of_nat (List.length q))
                (Z.of_nat (List.length p) + Z.of_nat (List.length q))) as Mq.
  split; [specialize (Mp ltac:(lia)) | specialize (Mq ltac:(lia))]; lia.
Qed.

(** X6.  The rating [strong] is given only to passwords of at least 16
    characters in which at least three of the four classes occur, and a
    password of fewer than 8 characters is never rated better than
    [moderate]. *)
Theorem strong_needs_length_and_classes (password : str) :
  let r := password_strength password in
  (strength r = lit "strong" ->
   (16 <= report_length r)%Z /\ (3 <= class_points password)%Z)
  /\ ((report_length r < 8)%Z ->
      strength r = lit "weak" \/ strength r = lit "moderate").
Proof.
  cbv zeta.
  destruct (password_strength_fields password) as (_ & _ & _ & _ & Hlen & _).
  cbv zeta in Hlen. rewrite Hlen.
  pose proof (score_split password) as Hs.
  pose proof (class_points_range password) as Hc.
  pose proof (length_points_range (Z.of_nat (List.length password))) as Hl.
  rewrite strength_rating. unfold rating. split.
  - destruct (Z.leb_spec 7 (score (password_strength password))) as [H7|H7].
    + intros _. split; [|lia].
      assert (3 <= length_points (Z.of_nat (List.length password)))%Z as H3 by lia.
      revert H3. unfold length_points, b2z.
      destruct (Z.leb_spec 8 (Z.of_nat (List.length password))),
        (Z.leb_spec 12 (Z.of_nat (List.length password))),
        (Z.leb_spec 16 (Z.of_nat (List.length password))),
        (Z.leb_spec 24 (Z.of_nat (List.length password))); lia.
    + destruct (5 <=? score (password_strength password))%Z;
        [|destruct (3 <=? score (password_strength password))%Z];
        intros H; vm_compute in H; discriminate.
  - intros H8.
    assert (length_points (Z.of_nat (List.length password)) = 0)%Z as H0.
    { unfold length_points, b2z.
      destruct (Z.leb_spec 8 (Z.of_nat (List.length password))),
        (Z.leb_spec 12 (Z.of_nat (List.length password))),
        (Z.leb_spec 16 (Z.of_nat (List.length password))),
        (Z.leb_spec 24 (Z.of_nat (List.length password))); lia. }
    destruct (Z.leb_spec 7 (score (password_strength password))); [lia|].
    destruct (Z.leb_spec 5 (score (password_strength password))); [lia|].
    destruct (Z.leb_spec 3 (score (password_strength password)));
      [right | left]; reflexivity.
Qed.

End Rubric.

Lemma strong_needs_length_and_classes_witness :
  (report_length (@password_strength AsciiTables.tables (lit "aB3!")) < 8)%Z
  /\ (strength (@password_strength AsciiTables.tables (lit "aB3!")) = lit "weak"
      \/ strength (@password_strength AsciiTables.tables (lit "aB3!")) = lit "moderate").
Proof.
  assert (report_length (@password_strength AsciiTables.tables (lit "aB3!")) < 8)%Z
    as H by (vm_compute; reflexivity).
  split; [exact H|].
  apply (@strong_needs_length_and_classes AsciiTables.tables (lit "aB3!")).
  exact H.
Defined.

(** *** Memorable passwords *)

Lemma join_length (sep : str) (parts : list str) :
  List.length (join sep parts)
  = list_sum (List.map (@List.length char) parts)
    + (List.length parts - 1) * List.length sep.
Proof.
  induction parts as [|p rest IH]; [reflexivity|].
  destruct rest as [|q rest].
  - cbn. lia.
  - change (join sep (p :: q :: rest)) with (p ++ sep ++ join sep (q :: rest)).
    rewrite !length_app, IH.
    cbn [List.map List.length Nat.sub Nat.mul].
    unfold list_sum. cbn [List.fold_right]. rewrite Nat.sub_0_r. lia.
Qed.

Lemma In_join_part (sep : str) (parts : list str) (p : str) (c : char) :
  In p parts -> In c p -> In c (join sep parts).
Proof.
  intros Hp Hc. induction parts as [|q rest IH]; [destruct Hp|].
  destruct rest as [|q' rest].
  - destruct Hp as [->|[]]. exact Hc.
  - change (join sep (q :: q' :: rest)) with (q ++ sep ++ join sep (q' :: rest)).
    rewrite !in_app_iff. destruct Hp as [->|Hp]; [left; exact Hc|].
    right; right. apply IH; exact Hp.
Qed.

Lemma In_join_sep (sep : str) (p q : str) (rest : list str) (c : char) :
  In c sep -> In c (join sep (p :: q :: rest)).
Proof.
  intros Hc.
  change (join sep (p :: q :: rest)) with (p ++ sep ++ join sep (q :: rest)).
  rewrite !in_app_iff. right; left; exact Hc.
Qed.

Lemma words_lengths :
  Forall (fun w => 4 <= List.length w <= 9) words.
Proof.
  assert (List.forallb (fun w => Nat.leb 4 (List.length w)
                                 && Nat.leb (List.length w) 9) words = true)
    as H by (vm_compute; reflexivity).
  rewrite forallb_forall in H. apply Forall_forall. intros w Hw.
  specialize (H w Hw). rewrite andb_true_iff, !Nat.leb_le in H. exact H.
Qed.

Lemma words_ascii_lowercase :
  Forall (Forall (fun c => In c ascii_lowercase)) words.
Proof.
  assert (List.forallb (List.forallb (fun c => mem c ascii_lowercase)) words = true)
    as H by (vm_compute; reflexivity).
  rewrite forallb_forall in H. apply Forall_forall. intros w Hw.
  specialize (H w Hw). rewrite forallb_forall in H.
  apply Forall_forall. intros c Hc. apply mem_In. auto.
Qed.

Lemma of_nat_digits (n : nat) :
  n < 100 -> of_nat n <> [] /\ Forall (fun c => In c digits) (of_nat n).
Proof.
  intros Hn.
  assert (List.forallb
            (fun k => negb (Nat.eqb (List.length (of_nat k)) 0)
                      && List.forallb (fun c => mem c digits) (of_nat k))
            (List.seq 0 100) = true) as H by (vm_compute; reflexivity).
  rewrite forallb_forall in H.
  specialize (H n ltac:(apply in_seq; lia)).
  rewrite andb_true_iff, negb_true_iff, Nat.eqb_neq, forallb_forall in H.
  destruct H as [Hne Hd]. split.
  - intros E. rewrite E in Hne. apply Hne; reflexivity.
  - apply Forall_forall. intros c Hc. apply mem_In. auto.
Qed.

Lemma selected_lengths (selected : list str) :
  Forall (fun w => In w words) selected ->
  4 * List.length selected <= list_sum (List.map (@List.length char) selected)
  /\ list_sum (List.map (@List.length char) selected) <= 9 * List.length selected.
Proof.
  pose proof words_lengths as Hw. rewrite Forall_forall in Hw.
  induction 1 as [|w selected Hin _ IH]; [simpl; lia|].
  specialize (Hw w Hin). cbn [List.map List.length].
  unfold list_sum in *. cbn [List.fold_right]. lia.
Qed.

(** X7.  A word count of zero or less is not rejected:
    [generate_memorable_password] then returns the numeral alone, one or
    two digits, after a single draw. *)
Theorem generate_memorable_password_no_words
    (num_words : Z) (separator : str) (g : rng) :
  (num_words <= 0)%Z ->
  exists n,
    n < 100
    /\ generate_memorable_password num_words separator g
       = (Ok (of_nat n), advance 1 g)
    /\ short_numeral (of_nat n).
Proof.
  intros Hw.
  destruct (randbelow_ok 100 g) as [En Hn]; [discriminate|].
  exists (Nat.modulo (tape g (pos g)) 100).
  split; [exact Hn|]. split; [|apply of_nat_below_100; exact Hn].
  unfold generate_memorable_password, range_len.
  replace (Z.to_nat num_words) with 0 by lia.
  cbn [replicateM]. unfold bind, ret. rewrite En. reflexivity.
Qed.

Lemma generate_memorable_password_no_words_witness :
  (0 <= 0)%Z
  /\ exists n,
       n < 100
       /\ generate_memorable_password 0 (lit "-") zero_tape
          = (Ok (of_nat n), advance 1 zero_tape)
       /\ short_numeral (of_nat n).
Proof.
  split; [lia|].
  apply (generate_memorable_password_no_words 0 (lit "-") zero_tape). lia.
Defined.

(** The length of the joined tokens, for [k] words. *)
Lemma joined_length_bounds (separator : str) (selected : list str) (n : nat) :
  Forall (fun w => In w words) selected -> n < 100 ->
  let k := List.length selected in
  let len := List.length (join separator (selected ++ [of_nat n])) in
  4 * k + k * List.length separator + 1 <= len
  /\ len <= 9 * k + k * List.length separator + 2.
Proof.
  intros Hall Hn. cbv zeta.
  destruct (of_nat_below_100 n Hn) as (Hnum & _ & _).
  destruct (selected_lengths selected Hall) as [Hlo Hhi].
  rewrite join_length, map_app, list_sum_app, length_app.
  cbn [List.map List.length].
  change (list_sum [List.length (of_nat n)]) with (List.length (of_nat n) + 0).
  replace (List.length selected + 1 - 1) with (List.length selected) by lia.
  unfold str in *. lia.
Qed.

(** X8.  For a positive word count [n] and a separator of [s] characters,
    the memorable password has between [4n + ns + 1] and [9n + ns + 2]
    characters: [n] words of four to nine letters, [n] separators and a
    numeral of one or two digits. *)
Theorem generate_memorable_password_length
    (num_words : Z) (separator : str) (g : rng) :
  (1 <= num_words)%Z ->
  exists pw g',
    generate_memorable_password num_words separator g = (Ok pw, g')
    /\ (4 * num_words + num_words * Z.of_nat (List.length separator) + 1
        <= Z.of_nat (List.length pw))%Z
    /\ (Z.of_nat (List.length pw)
        <= 9 * num_words + num_words * Z.of_nat (List.length separator) + 2)%Z.
Proof.
  intros Hw.
  destruct (generate_memorable_password_ok num_words separator g)
    as (selected & n & g' & E & Hlen & Hall & Hn).
  exists (join separator (selected ++ [of_nat n])), g'. split; [exact E|].
  destruct (joined_length_bounds separator selected n Hall Hn) as [Hlo Hhi].
  unfold range_len in Hlen.
  assert (num_words = Z.of_nat (List.length selected)) as -> by lia.
  rewrite <- !Nat2Z.inj_mul. unfold str in *. lia.
Qed.

Lemma generate_memorable_password_length_witness :
  (1 <= 4)%Z
  /\ exists pw g',
       generate_memorable_password 4 (lit "-") zero_tape = (Ok pw, g')
       /\ (4 * 4 + 4 * Z.of_nat (List.length (lit "-")) + 1
           <= Z.of_nat (List.length pw))%Z
       /\ (Z.of_nat (List.length pw)
           <= 9 * 4 + 4 * Z.of_nat (List.length (lit "-")) + 2)%Z.
Proof.
  split; [lia|].
  apply (generate_memorable_password_length 4 (lit "-") zero_tape). lia.
Defined.

(** *** The [generate-password] command *)

Section CommandFacts.

Context {U : Unicode}.

(** Words, a hyphen and a numeral give three classes. *)
Lemma memorable_class_points (selected : list str) (n : nat) :
  classifies_ascii U ->
  selected <> [] -> Forall (fun w => In w words) selected -> n < 100 ->
  (3 <= class_points (join (lit "-") (selected ++ [of_nat n])))%Z.
Proof.
  intros (Hlo & _ & Hdi) Hne Hall Hn.
  set (pw := join (lit "-") (selected ++ [of_nat n])).
  destruct (password_strength_fields pw) as (El & Eu & Ed & Es & _).
  cbv zeta in *. unfold class_points. cbv zeta. rewrite El, Eu, Ed, Es.
  destruct selected as [|w rest]; [congruence|].
  inversion Hall as [|? ? Hw _]; subst.
  pose proof words_lengths as HL. rewrite Forall_forall in HL.
  pose proof words_ascii_lowercase as HA. rewrite Forall_forall in HA.
  specialize (HL w Hw). specialize (HA w Hw).
  destruct w as [|c w]; [simpl in HL; lia|].
  inversion HA as [|? ? Hc _]; subst.
  destruct (of_nat_digits n Hn) as [Hnum Hdig].
  destruct (of_nat n) as [|d num] eqn:En; [congruence|].
  inversion Hdig as [|? ? Hd _]; subst.
  assert (In c pw) as Ic.
  { apply (In_join_part _ _ (c :: w)); [left; reflexivity | left; reflexivity]. }
  assert (In d pw) as Id.
  { apply (In_join_part _ _ (d :: num));
      [apply in_or_app; right; left; reflexivity | left; reflexivity]. }
  assert (In 45%N pw) as Is.
  { unfold pw. destruct rest as [|w' rest]; apply In_join_sep; left; reflexivity. }
  rewrite (existsb_In_true islower pw c Ic (Hlo c Hc)).
  rewrite (existsb_In_true isdigit pw d Id (Hdi d Hd)).
  rewrite (existsb_In_true (fun c => contains [c] punctuation) pw 45%N Is)
    by (vm_compute; reflexivity).
  pose proof (b2z_range (List.existsb isupper pw)).
  change (b2z true) with 1%Z. lia.
Qed.

(** X9.  With [--memorable] and at least four words the command prints a
    password of at least [5 * words + 1] characters whose score is at
    least 6, so that it is rated [good] or [strong], whatever the entropy
    source gives: three length thresholds are reached, and lowercase
    letters, a digit and the hyphen are present. *)
Theorem command_memorable_strength (length words : Z) (g : rng) :
  classifies_ascii U ->
  (4 <= words)%Z ->
  exists pw g',
    Main.generate_password length true words g
      = (Ok (pw, Z.of_nat (List.length pw), password_strength pw), g')
    /\ (5 * words + 1 <= Z.of_nat (List.length pw))%Z
    /\ (6 <= score (password_strength pw))%Z
    /\ (strength (password_strength pw) = lit "good"
        \/ strength (password_strength pw) = lit "strong").
Proof.
  intros HU Hw.
  destruct (generate_memorable_password_ok words (lit "-") g)
    as (selected & n & g' & E & Hlen & Hall & Hn).
  set (pw := join (lit "-") (selected ++ [of_nat n])) in *.
  exists pw, g'.
  assert (Main.generate_password length true words g
          = (Ok (pw, Z.of_nat (List.length pw), password_strength pw), g')) as Ecmd
    by (unfold Main.generate_password, bind; rewrite E; reflexivity).
  split; [exact Ecmd|].
  destruct (joined_length_bounds (lit "-") selected n Hall Hn) as [Hlo _].
  fold pw in Hlo. unfold range_len in Hlen.
  change (List.length (lit "-")) with 1 in Hlo.
  assert (5 * words + 1 <= Z.of_nat (List.length pw))%Z as Hlong
    by (unfold str in *; lia).
  split; [exact Hlong|].
  assert (6 <= score (password_strength pw))%Z as Hscore.
  { rewrite score_split.
    assert (3 <= class_points pw)%Z
      by (apply memorable_class_points; auto; destruct selected;
          [simpl in Hlen; lia | discriminate]).
    assert (3 <= length_points (Z.of_nat (List.length pw)))%Z.
    { unfold length_points, b2z.
      destruct (Z.leb_spec 8 (Z.of_nat (List.length pw))),
        (Z.leb_spec 12 (Z.of_nat (List.length pw))),
        (Z.leb_spec 16 (Z.of_nat (List.length pw))),
        (Z.leb_spec 24 (Z.of_nat (List.length pw))); lia. }
    lia. }
  split; [exact Hscore | apply good_or_strong; lia].
Qed.

(** X10.  With a length of zero or less (and without [--memorable]) the
    command does not fail: it prints an empty password of length 0,
    rated [weak] with score 0, and reads no entropy. *)
Theorem command_nonpositive_length (length words : Z) (g : rng) :
  (length <= 0)%Z ->
  exists r,
    Main.generate_password length false words g = (Ok ([], 0%Z, r), g)
    /\ score r = 0%Z /\ max_score r = 8%Z /\ strength r = lit "weak".
Proof.
  intros HL. exists (password_strength []).
  split; [|repeat split].
  unfold Main.generate_password, bind.
  rewrite (generate_password_nonpositive_length (Main.options_of_length length) g)
    by exact HL.
  reflexivity.
Qed.

End CommandFacts.

Lemma command_memorable_strength_witness :
  classifies_ascii AsciiTables.tables
  /\ (4 <= 4)%Z
  /\ exists pw g',
       @Main.generate_password AsciiTables.tables 24 true 4 zero_tape
         = (Ok (pw, Z.of_nat (List.length pw),
                @password_strength AsciiTables.tables pw), g')
       /\ (5 * 4 + 1 <= Z.of_nat (List.length pw))%Z
       /\ (6 <= score (@password_strength AsciiTables.tables pw))%Z
       /\ (strength (@password_strength AsciiTables.tables pw) = lit "good"
           \/ strength (@password_strength AsciiTables.tables pw) = lit "strong").
Proof.
  assert (4 <= 4)%Z as Hw by lia.
  split; [exact ascii_tables_classify|]. split; [exact Hw|].
  apply (@command_memorable_strength AsciiTables.tables 24 4 zero_tape
           ascii_tables_classify Hw).
Defined.

Lemma command_nonpositive_length_witness :
  (0 <= 0)%Z
  /\ exists r,
       @Main.generate_password AsciiTables.tables 0 false 4 zero_tape
         = (Ok ([], 0%Z, r), zero_tape)
       /\ score r = 0%Z /\ max_score r = 8%Z /\ strength r = lit "weak".
Proof.
  assert (0 <= 0)%Z as HL by lia.
  split; [exact HL|].
  apply (@command_nonpositive_length AsciiTables.tables 0 4 zero_tape HL).
Defined.

End GeneratedPasswords.

(** ** Mailbox lookup, display and dictionaries *)

Module MailboxViews.

Import MailboxModel PyStrFacts MailboxFacts.

(** The display name of a canonical role. *)
Definition canonical_title (c : canonical) : str :=
  match c with
  | Inbox => lit "Inbox"
  | Drafts => lit "Drafts"
  | Sent => lit "Sent"
  | Archive => lit "Archive"
  | Spam => lit "Spam"
  | Junk => lit "Junk"
  | Trash => lit "Trash"
  end.

Lemma dict_lookup_missing {V : Type} (d : list (str * V)) (k : str) :
  (forall v, ~ In (k, v) d) -> dict_lookup d k = None.
Proof.
  induction d as [|[k' v'] d IH]; intros Hn; [reflexivity|].
  cbn [dict_lookup]. destruct (eqb k' k) eqn:E.
  - apply eqb_eq in E; subst k'. destruct (Hn v'); left; reflexivity.
  - apply IH. intros v Hin; apply (Hn v); right; exact Hin.
Qed.

Lemma role_names_items (k v : str) :
  In (k, v) role_names ->
  exists c, k = canonical_name c /\ v = canonical_title c.
Proof.
  unfold role_names. cbn [In].
  intros [H|[H|[H|[H|[H|[H|[H|[]]]]]]]]; injection H as <- <-;
    [exists Inbox | exists Sent | exists Drafts | exists Trash
    | exists Archive | exists Spam | exists Junk]; split; reflexivity.
Qed.

Lemma role_names_lookup_canonical (c : canonical) :
  dict_lookup role_names (canonical_name c) = Some (canonical_title c).
Proof. destruct c; reflexivity. Qed.

Section Views.

Context {U : Unicode}.

(** The role of [m] reads as [q] does, case-insensitively. *)
Definition role_matches (q : str) (m : Mailbox) : Prop :=
  exists r, role m = Some r /\ r <> [] /\ lower r = lower q.

Lemma get_mailbox_by_role_found (cache_values : list Mailbox) (q : str) (m : Mailbox) :
  get_mailbox_by_role cache_values q = Some m ->
  exists before after,
    cache_values = before ++ m :: after
    /\ role_matches q m
    /\ Forall (fun m' => ~ role_matches q m') before.
Proof.
  induction cache_values as [|x rest IH]; [discriminate|].
  cbn [get_mailbox_by_role]. intros H.
  assert (get_mailbox_by_role rest q = Some m -> ~ role_matches q x ->
          exists before after,
            x :: rest = before ++ m :: after /\ role_matches q m
            /\ Forall (fun m' => ~ role_matches q m') before) as Hrest.
  { intros Hr Hx. destruct (IH Hr) as (b & a & -> & Hm & Hb).
    exists (x :: b), a. split; [reflexivity|]. split; [exact Hm|].
    constructor; assumption. }
  destruct (role x) as [[|c r]|] eqn:Ex.
  - apply Hrest; [exact H|]. intros (r' & Er & Hne & _). congruence.
  - destruct (eqb (lower (c :: r)) (lower q)) eqn:E.
    + injection H as <-. exists [], rest. split; [reflexivity|]. split.
      * exists (c :: r). split; [exact Ex|]. split; [discriminate|].
        apply eqb_eq; exact E.
      * constructor.
    + apply Hrest; [exact H|]. intros (r' & Er & _ & Hl).
      rewrite Ex in Er. injection Er as <-.
      rewrite Hl, eqb_refl in E. discriminate.
  - apply Hrest; [exact H|]. intros (r' & Er & _). congruence.
Qed.

Lemma get_mailbox_by_role_none (cache_values : list Mailbox) (q : str) :
  get_mailbox_by_role cache_values q = None <->
  Forall (fun m => ~ role_matches q m) cache_values.
Proof.
  induction cache_values as [|x rest IH]; [split; [constructor | reflexivity]|].
  cbn [get_mailbox_by_role].
  destruct (role x) as [[|c r]|] eqn:Ex.
  - rewrite IH. split.
    + intros H; constructor; [|exact H]. intros (r' & Er & Hne & _). congruence.
    + intros H; inversion H; assumption.
  - destruct (eqb (lower (c :: r)) (lower q)) eqn:E.
    + split; [discriminate|]. intros H; inversion H as [|? ? Hx _]; subst.
      exfalso; apply Hx. exists (c :: r).
      split; [exact Ex|]. split; [discriminate | apply eqb_eq; exact E].
    + rewrite IH. split.
      * intros H; constructor; [|exact H]. intros (r' & Er & _ & Hl).
        rewrite Ex in Er. injection Er as <-.
        rewrite Hl, eqb_refl in E. discriminate.
      * intros H; inversion H; assumption.
  - rewrite IH. split.
    + intros H; constructor; [|exact H]. intros (r' & Er & _). congruence.
    + intros H; inversion H; assumption.
Qed.

(** X11.  [get_mailbox_by_role] returns the first cached mailbox whose
    non-empty role equals the wanted one up to case, and [None] exactly
    when the cache holds no such mailbox. *)
Theorem get_mailbox_by_role_first (cache_values : list Mailbox) (q : str) :
  (forall m, get_mailbox_by_role cache_values q = Some m ->
     exists before after,
       cache_values = before ++ m :: after
       /\ role_matches q m
       /\ Forall (fun m' => ~ role_matches q m') before)
  /\ (get_mailbox_by_role cache_values q = None <->
      Forall (fun m => ~ role_matches q m) cache_values).
Proof.
  split; [intros m; apply get_mailbox_by_role_found | apply get_mailbox_by_role_none].
Qed.

(** A key of [role_order] gets its canonical rank, any other key 99. *)
Lemma role_order_get_cases (k : str) :
  (exists c, k = canonical_name c
             /\ dict_get role_order k 99%Z = canonical_rank c)
  \/ dict_get role_order k 99%Z = other_rank.
Proof.
  destruct (List.existsb (fun kv => eqb (fst kv) k) role_order) eqn:E.
  - left. apply existsb_exists in E. destruct E as [[k' v] [Hin Hk]].
    apply eqb_eq in Hk; cbn [fst] in Hk; subst k'.
    apply role_order_items in Hin. destruct Hin as [c [Hc _]].
    exists c. split; [exact Hc|]. rewrite Hc. apply role_order_get_canonical.
  - right. apply role_order_get_other.
    intros c Hc. apply not_true_iff_false in E. apply E.
    apply existsb_exists. exists (canonical_name c, canonical_rank c).
    split; [apply role_order_items; eauto|].
    cbn [fst]. rewrite Hc. apply eqb_refl.
Qed.

(** Only the inbox has rank 0, and no rank is negative. *)
Lemma rank_zero_inbox (k : str) :
  (dict_get role_order k 99%Z <= 0)%Z -> k = lit "inbox".
Proof.
  intros H. destruct (role_order_get_cases k) as [[c [Hc Hr]]|Hr];
    rewrite Hr in H.
  - rewrite Hc. destruct c; simpl in H; try lia. reflexivity.
  - unfold other_rank in H; lia.
Qed.

Lemma inbox_first (mailboxes : list Mailbox) (m : Mailbox) :
  In m mailboxes -> role_matches (lit "inbox") m ->
  lower (lit "inbox") = lit "inbox" ->
  exists h t,
    sort_mailboxes mailboxes = h :: t /\ role_matches (lit "inbox") h.
Proof.
  intros Hin (r & Er & Hne & Hr) Hq. rewrite Hq in Hr.
  pose proof (sorted_by_key_perm _ _ sort_key tuple_ltb mailboxes) as Hperm.
  pose proof (sorted_by_key_sorted _ _ sort_key tuple_ltb tuple_ltb_asym
                tuple_le_trans mailboxes) as Hsorted.
  fold (sort_mailboxes mailboxes) in Hperm, Hsorted.
  assert (In m (sort_mailboxes mailboxes)) as Hm
    by (eapply Permutation_in; [symmetry; exact Hperm | exact Hin]).
  destruct (sort_mailboxes mailboxes) as [|h t]; [destruct Hm|].
  exists h, t. split; [reflexivity|].
  assert (tuple_ltb (sort_key m) (sort_key h) = false) as Hle.
  { inversion Hsorted as [|? ? _ Hh]; subst.
    destruct Hm as [<-|Hm].
    - apply (lt_irrefl _ tuple_ltb tuple_ltb_asym).
    - rewrite Forall_forall in Hh. apply (Hh m Hm). }
  rewrite (sort_key_has_role _ _ Er Hne), Hr in Hle.
  change (dict_get role_order (lit "inbox") 99%Z) with 0%Z in Hle.
  destruct (role_cases h) as [(rh & Eh & Hh)|Nh].
  - rewrite (sort_key_has_role _ _ Eh Hh) in Hle.
    apply tuple_ltb_false in Hle.
    exists rh. split; [exact Eh|]. split; [exact Hh|]. rewrite Hq.
    apply rank_zero_inbox.
    destruct Hle as [?|[_ [?|[? _]]]]; lia.
  - rewrite (sort_key_no_role _ Nh) in Hle.
    apply tuple_ltb_false in Hle. destruct Hle as [?|[? _]]; lia.
Qed.

(** X12.  When the cache holds a mailbox with the inbox role (in any
    case), [sort_mailboxes] puts an inbox first, and looking the inbox up
    in the sorted list returns that first element.  The tables are asked
    to leave the word [inbox] as it is when lowering it. *)
Theorem sort_mailboxes_inbox_first (mailboxes : list Mailbox) (m : Mailbox) :
  lower (lit "inbox") = lit "inbox" ->
  get_mailbox_by_role mailboxes (lit "inbox") = Some m ->
  exists h t,
    sort_mailboxes mailboxes = h :: t
    /\ role_matches (lit "inbox") h
    /\ get_mailbox_by_role (sort_mailboxes mailboxes) (lit "inbox") = Some h.
Proof.
  intros Hq Hm.
  destruct (get_mailbox_by_role_found _ _ _ Hm) as (b & a & E & Hr & _).
  destruct (inbox_first mailboxes m) as (h & t & Es & Hh); auto.
  { rewrite E. apply in_or_app; right; left; reflexivity. }
  exists h, t. split; [exact Es|]. split; [exact Hh|].
  rewrite Es. cbn [get_mailbox_by_role].
  destruct Hh as (rh & Eh & Hne & Hl). rewrite Eh.
  destruct rh as [|c rh]; [congruence|].
  rewrite Hl, eqb_refl. reflexivity.
Qed.

(** X14.  [display_name] and [sort_key] recognise the same roles: a
    mailbox whose non-empty role is a canonical one up to case is shown
    under the role's title, whatever its own name, and is keyed with the
    role's canonical rank; every other mailbox is shown under its own
    name. *)
Theorem display_name_recognised (m : Mailbox) :
  (forall r c, role m = Some r -> r <> [] -> lower r = canonical_name c ->
     display_name m = canonical_title c
     /\ sort_key m = (0%Z, canonical_rank c, lower (name m)))
  /\ (forall r, role m = Some r -> r <> [] ->
       (forall c, lower r <> canonical_name c) ->
       display_name m = name m
       /\ sort_key m = (0%Z, other_rank, lower (name m)))
  /\ (no_role m -> display_name m = name m).
Proof.
  split; [|split].
  - intros r c Er Hne Hc. split.
    + unfold display_name. rewrite Er. destruct r; [congruence|].
      rewrite Hc, role_names_lookup_canonical. reflexivity.
    + rewrite (sort_key_has_role _ _ Er Hne), Hc, role_order_get_canonical.
      reflexivity.
  - intros r Er Hne Hc. split.
    + unfold display_name. rewrite Er. destruct r as [|x r]; [congruence|].
      rewrite dict_lookup_missing; [reflexivity|].
      intros v Hin. apply role_names_items in Hin.
      destruct Hin as [c [Hk _]]. apply (Hc c); exact Hk.
    + rewrite (sort_key_has_role _ _ Er Hne), role_order_get_other by exact Hc.
      reflexivity.
  - intros [H|H]; unfold display_name; rewrite H; reflexivity.
Qed.

End Views.

Lemma sort_mailboxes_inbox_first_witness :
  @lower AsciiTables.tables (lit "inbox") = lit "inbox"
  /\ @get_mailbox_by_role AsciiTables.tables three_mailboxes (lit "inbox") = Some inbox
  /\ exists h t,
       @sort_mailboxes AsciiTables.tables three_mailboxes = h :: t
       /\ @role_matches AsciiTables.tables (lit "inbox") h
       /\ @get_mailbox_by_role AsciiTables.tables
            (@sort_mailboxes AsciiTables.tables three_mailboxes) (lit "inbox")
          = Some h.
Proof.
  assert (@lower AsciiTables.tables (lit "inbox") = lit "inbox") as Hq
    by reflexivity.
  assert (@get_mailbox_by_role AsciiTables.tables three_mailboxes (lit "inbox")
          = Some inbox) as Hm by reflexivity.
  split; [exact Hq|]. split; [exact Hm|].
  apply (@sort_mailboxes_inbox_first AsciiTables.tables three_mailboxes inbox Hq Hm).
Defined.

Definition shouting_inbox : Mailbox := mailbox "m4" "Primary" (Some "INBOX"%string) 7.

Lemma display_name_recognised_witness :
  role shouting_inbox = Some (lit "INBOX")
  /\ lit "INBOX" <> []
  /\ @lower AsciiTables.tables (lit "INBOX") = canonical_name Inbox
  /\ @display_name AsciiTables.tables shouting_inbox = canonical_title Inbox
  /\ @sort_key AsciiTables.tables shouting_inbox
     = (0%Z, canonical_rank Inbox, @lower AsciiTables.tables (name shouting_inbox)).
Proof.
  assert (lit "INBOX" <> []) as Hne by discriminate.
  split; [reflexivity|]. split; [exact Hne|]. split; [reflexivity|].
  apply (proj1 (@display_name_recognised AsciiTables.tables shouting_inbox)
           (lit "INBOX") Inbox eq_refl Hne eq_refl).
Defined.

(** *** The unread badge *)

Lemma of_nat_below_1000 (k : nat) :
  0 < k < 1000 ->
  1 <= List.length (of_nat k) <= 3
  /\ Forall (fun c => In c digits) (of_nat k).
Proof.
  intros Hk.
  assert (List.forallb
            (fun k => Nat.leb 1 (List.length (of_nat k))
                      && Nat.leb (List.length (of_nat k)) 3
                      && List.forallb (fun c => GeneratedPasswords.mem c digits)
                           (of_nat k))
            (List.seq 1 999) = true) as H by (vm_compute; reflexivity).
  rewrite forallb_forall in H.
  specialize (H k ltac:(apply in_seq; lia)).
  rewrite !andb_true_iff, !Nat.leb_le, forallb_forall in H.
  destruct H as [[H1 H3] Hd]. split; [lia|].
  apply Forall_forall. intros c Hc. apply GeneratedPasswords.mem_In. auto.
Qed.

(** X15.  The unread badge is empty exactly when there is nothing unread
    (a count of zero or less), is [999+] for every count above 999, and is
    otherwise the count in decimal, one to three digits; so it never has
    more than four characters. *)
Theorem unread_display_badge (m : Mailbox) :
  let n := unread_emails m in
  (unread_display m = [] <-> (n <= 0)%Z)
  /\ (unread_display m = lit "999+" <-> (999 < n)%Z)
  /\ ((0 < n <= 999)%Z ->
      unread_display m = of_nat (Z.to_nat n)
      /\ Forall (fun c => In c digits) (unread_display m))
  /\ List.length (unread_display m) <= 4.
Proof.
  cbv zeta. unfold unread_display.
  destruct (Z.ltb_spec 0 (unread_emails m)) as [Hpos|Hneg].
  - destruct (Z.ltb_spec 999 (unread_emails m)) as [Hbig|Hsmall].
    + split; [split; [discriminate | lia]|].
      split; [split; [lia | reflexivity]|].
      split; [lia | simpl; lia].
    + assert (of_Z (unread_emails m) = of_nat (Z.to_nat (unread_emails m))) as E
        by (destruct (unread_emails m); [lia | reflexivity | lia]).
      rewrite E.
      destruct (of_nat_below_1000 (Z.to_nat (unread_emails m)) ltac:(lia))
        as [Hlen Hdig].
      split; [split; [intros H; rewrite H in Hlen; simpl in Hlen; lia | lia]|].
      split.
      { split; [|lia]. intros H. rewrite H in Hdig.
        exfalso. inversion Hdig as [|? ? _ Hd]; subst.
        inversion Hd as [|? ? _ Hd']; subst. inversion Hd' as [|? ? _ Hd'']; subst.
        inversion Hd'' as [|? ? Hplus _]; subst.
        apply GeneratedPasswords.mem_In in Hplus. vm_compute in Hplus.
        discriminate. }
      split; [intros _; split; [reflexivity | exact Hdig] | lia].
  - split; [split; [lia | reflexivity]|].
    split; [split; [discriminate | lia]|].
    split; [lia | simpl; lia].
Qed.

Definition busy : Mailbox :=
  {| id := lit "m5"; name := lit "Lists"; role := None; parent_id := None;
     sort_order := 0; total_emails := 2000; unread_emails := 42;
     total_threads := 0; unread_threads := 0; is_subscribed := true |}.

Lemma unread_display_badge_witness :
  (0 < unread_emails busy <= 999)%Z
  /\ unread_display busy = of_nat (Z.to_nat (unread_emails busy))
  /\ Forall (fun c => In c digits) (unread_display busy).
Proof.
  assert (0 < unread_emails busy <= 999)%Z as H by (simpl; lia).
  split; [exact H|].
  apply (unread_display_badge busy). exact H.
Defined.

(** *** Dictionaries *)

Lemma of_optional_inj (a b : option str) : of_optional a = of_optional b -> a = b.
Proof. destruct a, b; simpl; congruence. Qed.

Lemma args_of_inj (m m' : Mailbox) : args_of m = args_of m' -> m = m'.
Proof.
  destruct m, m'. unfold args_of. cbn.
  intros H. injection H. intros.
  repeat match goal with
         | H : of_optional _ = of_optional _ |- _ => apply of_optional_inj in H
         end.
  subst. reflexivity.
Qed.

(** X16.  [from_dict] reads back what [to_dict] writes: on the dictionary
    of a mailbox it does not raise and passes the constructor exactly the
    fields of that mailbox, so that two mailboxes with the same dictionary
    are the same mailbox.  On a dictionary without [id] or without [name]
    it raises [KeyError], and only then. *)
Theorem mailbox_dict_round_trip (m : Mailbox) :
  from_dict (to_dict m) = Some (args_of m)
  /\ (forall m', to_dict m' = to_dict m -> m' = m)
  /\ (forall data,
       from_dict data = None <->
       dict_lookup data (lit "id") = None \/ dict_lookup data (lit "name") = None).
Proof.
  split; [|split].
  - destruct m. reflexivity.
  - intros m' H. apply args_of_inj.
    destruct m, m'. unfold to_dict, args_of in *. cbn in *.
    injection H. intros. congruence.
  - intros data. unfold from_dict.
    destruct (dict_lookup data (lit "id")), (dict_lookup data (lit "name"));
      split; intros H; try discriminate; try reflexivity; auto;
      destruct H; discriminate.
Qed.

End MailboxViews.

(** ** Senders, search results and selection *)

Module SearchSelection.

Import EmailModel SearchModal PyStrFacts SearchFacts.

(** The code point of the at sign. *)
Definition at_sign : char := 64%N.

(** Every string is cut at the first occurrence of a character, if any. *)
Lemma cut_at_first (c0 : char) (s : str) :
  exists pre,
    Forall (fun c => c <> c0) pre
    /\ (s = pre \/ exists rest, s = pre ++ c0 :: rest).
Proof.
  induction s as [|c s (pre & Hpre & Hs)].
  - exists []. split; [constructor | left; reflexivity].
  - destruct (N.eq_dec c c0) as [->|Hc].
    + exists []. split; [constructor | right; exists s; reflexivity].
    + exists (c :: pre). split; [constructor; assumption|].
      destruct Hs as [->|[rest ->]]; [left | right; exists rest]; reflexivity.
Qed.

(** The first segment of a split on a single character. *)
Lemma split_single_head (c0 : char) (pre rest : str) :
  Forall (fun c => c <> c0) pre ->
  split pre [c0] = Some [pre]
  /\ exists segs, split (pre ++ c0 :: rest) [c0] = Some (pre :: segs).
Proof.
  intros Hpre. unfold split. split.
  - rewrite <- (app_nil_r pre) at 1.
    rewrite split_scan_segment by exact Hpre.
    cbn [split_scan]. rewrite app_nil_r, rev_involutive. reflexivity.
  - rewrite split_scan_segment by exact Hpre.
    change (c0 :: rest) with ([c0] ++ rest).
    rewrite split_scan_sep by discriminate.
    rewrite app_nil_r, rev_involutive. eauto.
Qed.

(** X17.  [short_display] is the name when there is a non-empty one;
    otherwise it is the part of the address before its first at sign (the
    whole address when it has none), and so contains no at sign. *)
Theorem short_display_local_part (a : EmailAddress) :
  (forall n, name a = Some n -> n <> [] -> short_display a = n)
  /\ (name a = None \/ name a = Some [] ->
      ~ In at_sign (short_display a)
      /\ (email a = short_display a
          \/ exists rest, email a = short_display a ++ at_sign :: rest)).
Proof.
  split.
  - intros n Hn Hne. unfold short_display. rewrite Hn.
    destruct n; [congruence | reflexivity].
  - intros Hname.
    assert (short_display a
            = match split (email a) (lit "@") with
              | Some (p :: _) => p
              | _ => []
              end) as E
      by (unfold short_display; destruct Hname as [->| ->]; reflexivity).
    rewrite E. change (lit "@") with [at_sign].
    destruct (cut_at_first at_sign (email a)) as (pre & Hpre & Hs).
    destruct (split_single_head at_sign pre [] Hpre) as [Hwhole _].
    assert (~ In at_sign pre) as Hno
      by (rewrite Forall_forall in Hpre; intros Hin; apply (Hpre _ Hin); reflexivity).
    destruct Hs as [Hs|[rest Hs]]; rewrite Hs.
    + rewrite Hwhole. split; [exact Hno | left; reflexivity].
    + destruct (split_single_head at_sign pre rest Hpre) as [_ [segs Hsegs]].
      rewrite Hsegs. split; [exact Hno | right; exists rest; reflexivity].
Qed.

Definition ann : EmailAddress :=
  {| email := lit "ann.lee@example.com"; name := None |}.

Lemma short_display_local_part_witness :
  (name ann = None \/ name ann = Some [])
  /\ ~ In at_sign (short_display ann)
  /\ (email ann = short_display ann
      \/ exists rest, email ann = short_display ann ++ at_sign :: rest).
Proof.
  assert (name ann = None \/ name ann = Some []) as H by (left; reflexivity).
  split; [exact H|].
  apply (short_display_local_part ann). exact H.
Defined.

Section Results.

Context {U : Unicode}.

(** X18.  A score is one of finitely many sums of the six amounts: it lies
    between 0 and 360, and a score that is not 0 is at least 30, the
    smallest amount. *)
Theorem calculate_score_bounds (query : str) (email : Email) :
  (0 <= _calculate_score query email <= 360)%Z
  /\ ((0 < _calculate_score query email)%Z ->
      (30 <= _calculate_score query email)%Z).
Proof.
  unfold _calculate_score.
  destruct (contains query (lower (subject email))),
    (startswith (lower (subject email)) query),
    (contains query (lower (from_display email))),
    (startswith (lower (from_display email)) query),
    (contains query (lower (from_email email))),
    (contains query (lower (preview email))); cbn; lia.
Qed.

(** What is ranked is loaded and matches. *)
Lemma rank_In (query : str) (emails : list Email) (limit : nat) (e : Email) :
  In e (rank query emails limit) ->
  In e emails /\ (0 < _calculate_score query e)%Z.
Proof.
  rewrite rank_firstn. intros He. apply firstn_incl in He.
  unfold ranked in He.
  apply (Permutation_in _ (sorted_by_key_perm _ _ _ _ _)) in He.
  unfold matches in He. apply filter_In in He.
  rewrite Z.ltb_lt in He. exact He.
Qed.

Lemma on_input_changed_In (all_emails : list Email) (value : str) (e : Email) :
  In e (on_input_changed all_emails value) ->
  In e all_emails
  /\ (lower (strip value) <> [] ->
      (0 < _calculate_score (lower (strip value)) e)%Z).
Proof.
  unfold on_input_changed.
  destruct (lower (strip value)) as [|c q] eqn:Eq.
  - intros He. split; [eapply firstn_incl; exact He | congruence].
  - intros He. apply rank_In in He. tauto.
Qed.

(** X19.  Whatever is typed, the modal lists at most 50 emails, all of
    them among the loaded ones; an input that is blank after stripping
    leaves the first 50 loaded emails, as when the modal opens. *)
Theorem on_input_changed_results (all_emails : list Email) (value : str) :
  List.length (on_input_changed all_emails value) <= 50
  /\ Forall (fun e => In e all_emails) (on_input_changed all_emails value)
  /\ (lower (strip value) = [] ->
      on_input_changed all_emails value = initial_filtered all_emails).
Proof.
  split; [|split].
  - unfold on_input_changed. destruct (lower (strip value)).
    + apply firstn_le_length.
    + rewrite rank_firstn. apply firstn_le_length.
  - apply Forall_forall. intros e He.
    apply on_input_changed_In in He. tauto.
  - intros E. unfold on_input_changed. rewrite E. reflexivity.
Qed.

(** [action_select] dismisses with the email under the cursor when the
    cursor is on a row, with [None] otherwise. *)
Lemma action_select_cases (filtered : list Email) (cursor_row : option Z) :
  (exists row e,
     cursor_row = Some row
     /\ (0 <= row < Z.of_nat (List.length filtered))%Z
     /\ List.nth_error filtered (Z.to_nat row) = Some e
     /\ action_select filtered cursor_row = Dismiss (Some e))
  \/ ((forall row, cursor_row = Some row ->
         ~ (0 <= row < Z.of_nat (List.length filtered))%Z)
      /\ action_select filtered cursor_row = Dismiss None).
Proof.
  unfold action_select. destruct cursor_row as [row|].
  - destruct (Z.leb_spec 0 row) as [H0|H0];
      destruct (Z.ltb_spec row (Z.of_nat (List.length filtered))) as [H1|H1];
      cbn [andb]; try (right; split; [intros r [= <-]; lia | reflexivity]).
    left. unfold index.
    destruct (Z.leb_spec 0 row) as [_|]; [|lia].
    destruct (List.nth_error filtered (Z.to_nat row)) as [e|] eqn:E.
    + exists row, e. repeat split; auto; lia.
    + apply nth_error_None in E. lia.
  - right. split; [discriminate | reflexivity].
Qed.

(** X20.  Selecting in the modal never raises [IndexError], wherever the
    cursor is; and the email it dismisses with after an input, if any, is
    one of the loaded emails, which for a non-blank input has a positive
    score for the query. *)
Theorem action_select_after_search
    (all_emails : list Email) (value : str) (cursor_row : option Z) :
  let query := lower (strip value) in
  let filtered := on_input_changed all_emails value in
  action_select filtered cursor_row <> IndexError
  /\ action_select filtered cursor_row <> NoDismiss
  /\ (forall e, action_select filtered cursor_row = Dismiss (Some e) ->
       In e all_emails
       /\ (query <> [] -> (0 < _calculate_score query e)%Z)).
Proof.
  cbv zeta.
  destruct (action_select_cases (on_input_changed all_emails value) cursor_row)
    as [(row & e & _ & _ & Hnth & E)|[_ E]]; rewrite E.
  - split; [discriminate|]. split; [discriminate|].
    intros e' [= <-]. apply on_input_changed_In.
    eapply nth_error_In; exact Hnth.
  - split; [discriminate|]. split; [discriminate|]. intros e' H; discriminate.
Qed.

Lemma first_with_id_found (filtered : list Email) (key : str) (e : Email) :
  first_with_id filtered key = Dismiss (Some e) ->
  In e filtered /\ id e = key.
Proof.
  induction filtered as [|x rest IH]; [discriminate|].
  cbn [first_with_id]. destruct (eqb (id x) key) eqn:E.
  - intros [= <-]. split; [left; reflexivity | apply eqb_eq; exact E].
  - intros H. destruct (IH H). split; [right|]; assumption.
Qed.

Lemma first_with_id_unique (filtered : list Email) (e : Email) :
  NoDup (List.map id filtered) -> In e filtered ->
  first_with_id filtered (id e) = Dismiss (Some e).
Proof.
  induction filtered as [|x rest IH]; intros Hnd Hin; [destruct Hin|].
  cbn [first_with_id]. cbn [List.map] in Hnd.
  inversion Hnd as [|? ? Hx Hrest]; subst.
  destruct Hin as [->|Hin]; [rewrite eqb_refl; reflexivity|].
  destruct (eqb (id x) (id e)) eqn:E; [|apply IH; assumption].
  apply eqb_eq in E. exfalso. apply Hx. rewrite E.
  apply in_map; exact Hin.
Qed.

(** X21.  A double click on a row dismisses only with a listed email
    whose id is the row key; when the listed emails have distinct ids, the
    row of an email with a non-empty id dismisses with exactly that
    email.  A row key that is missing or empty dismisses nothing. *)
Theorem row_selected_by_id (filtered : list Email) :
  (forall key e,
     on_data_table_row_selected filtered key = Dismiss (Some e) ->
     In e filtered /\ key = Some (id e) /\ id e <> [])
  /\ (NoDup (List.map id filtered) ->
      forall e, In e filtered -> id e <> [] ->
        on_data_table_row_selected filtered (Some (id e)) = Dismiss (Some e))
  /\ on_data_table_row_selected filtered None = NoDismiss
  /\ on_data_table_row_selected filtered (Some []) = NoDismiss.
Proof.
  split; [|split; [|split; reflexivity]].
  - intros [[|c k]|] e; cbn [on_data_table_row_selected]; try discriminate.
    intros H. apply first_with_id_found in H. destruct H as [Hin Hid].
    split; [exact Hin|]. rewrite Hid. split; [reflexivity | discriminate].
  - intros Hnd e Hin Hne. unfold on_data_table_row_selected.
    destruct (id e) as [|c k] eqn:E; [congruence|].
    rewrite <- E. apply first_with_id_unique; assumption.
Qed.

(** X22.  With room for at least one result, the ranking is empty exactly
    when no email has a positive score, and otherwise its first element
    has the highest score of all the emails searched. *)
Theorem rank_best_first (query : str) (emails : list Email) (limit : nat) :
  1 <= limit ->
  (rank query emails limit = [] <->
   Forall (fun e => (_calculate_score query e <= 0)%Z) emails)
  /\ (forall best rest, rank query emails limit = best :: rest ->
       In best emails
       /\ Forall (fun e => (_calculate_score query e
                            <= _calculate_score query best)%Z) emails).
Proof.
  intros Hlimit. rewrite rank_firstn.
  pose proof (sorted_by_key_perm _ _ (_calculate_score query) higher
                (matches query emails)) as Hperm.
  pose proof (sorted_by_key_sorted _ _ (_calculate_score query) higher
                higher_asym higher_le_trans (matches query emails)) as Hsorted.
  fold (ranked query emails) in Hperm, Hsorted.
  assert (forall e, In e (ranked query emails) <->
                    In e emails /\ (0 < _calculate_score query e)%Z) as Hin.
  { intros e. split.
    - intros He. apply (Permutation_in _ Hperm) in He.
      unfold matches in He. apply filter_In in He. rewrite Z.ltb_lt in He. exact He.
    - intros He. apply (Permutation_in _ (Permutation_sym Hperm)).
      unfold matches. apply filter_In. rewrite Z.ltb_lt. exact He. }
  split.
  - split.
    + intros E. apply Forall_forall. intros e He.
      destruct (Z.ltb_spec 0 (_calculate_score query e)) as [Hpos|]; [|assumption].
      exfalso. assert (In e (ranked query emails)) as Hr by (apply Hin; auto).
      destruct (ranked query emails) as [|x l]; [destruct Hr|].
      destruct limit; [lia | discriminate].
    + intros Hall. rewrite Forall_forall in Hall.
      destruct (ranked query emails) as [|x l]; [destruct limit; reflexivity|].
      exfalso. assert (In x emails /\ (0 < _calculate_score query x)%Z) as [Hx Hp]
        by (apply Hin; left; reflexivity).
      specialize (Hall x Hx). lia.
  - intros best rest E.
    destruct (ranked query emails) as [|x l] eqn:Er;
      [destruct limit; discriminate|].
    destruct limit as [|limit]; [lia|]. cbn [List.firstn] in E.
    injection E as <- _.
    assert (In x emails /\ (0 < _calculate_score query x)%Z) as [Hx Hp]
      by (apply Hin; left; reflexivity).
    split; [exact Hx|]. apply Forall_forall. intros e He.
    destruct (Z.ltb_spec 0 (_calculate_score query e)) as [Hpos|]; [|lia].
    assert (In e (x :: l)) as Hr by (apply Hin; auto).
    destruct Hr as [<-|Hr]; [lia|].
    inversion Hsorted as [|? ? _ Hhd]; subst.
    rewrite Forall_forall in Hhd. specialize (Hhd e Hr).
    unfold key_le, higher in Hhd. rewrite Z.ltb_ge in Hhd. exact Hhd.
Qed.

(** X23.  When at most 50 of the loaded emails match a non-blank input,
    none is dropped: the modal lists exactly the emails of positive
    score. *)
Theorem on_input_changed_all_matches (all_emails : list Email) (value : str) :
  lower (strip value) <> [] ->
  List.length (matches (lower (strip value)) all_emails) <= 50 ->
  Permutation (on_input_changed all_emails value)
              (matches (lower (strip value)) all_emails).
Proof.
  intros Hq Hfew. unfold on_input_changed.
  destruct (lower (strip value)) as [|c q] eqn:Eq; [congruence|].
  rewrite rank_firstn.
  pose proof (sorted_by_key_perm _ _ (_calculate_score (c :: q)) higher
                (matches (c :: q) all_emails)) as Hperm.
  fold (ranked (c :: q) all_emails) in Hperm.
  rewrite firstn_all2; [exact Hperm|].
  rewrite (Permutation_length Hperm). exact Hfew.
Qed.

End Results.

Lemma on_input_changed_results_witness :
  @lower AsciiTables.tables (@strip AsciiTables.tables (lit "   ")) = []
  /\ @on_input_changed AsciiTables.tables loaded (lit "   ")
     = initial_filtered loaded.
Proof.
  assert (@lower AsciiTables.tables (@strip AsciiTables.tables (lit "   ")) = [])
    as H by reflexivity.
  split; [exact H|].
  apply (@on_input_changed_results AsciiTables.tables loaded (lit "   ")). exact H.
Defined.

Lemma action_select_after_search_witness :
  @lower AsciiTables.tables (@strip AsciiTables.tables (lit "Invoice")) <> []
  /\ @action_select
       (@on_input_changed AsciiTables.tables loaded (lit "Invoice")) (Some 0%Z)
     = Dismiss (Some invoice42)
  /\ In invoice42 loaded
  /\ (0 < @_calculate_score AsciiTables.tables
             (@lower AsciiTables.tables (@strip AsciiTables.tables (lit "Invoice")))
             invoice42)%Z.
Proof.
  assert (@lower AsciiTables.tables (@strip AsciiTables.tables (lit "Invoice")) <> [])
    as Hq by discriminate.
  assert (@action_select
            (@on_input_changed AsciiTables.tables loaded (lit "Invoice")) (Some 0%Z)
          = Dismiss (Some invoice42)) as Hsel by (vm_compute; reflexivity).
  split; [exact Hq|]. split; [exact Hsel|].
  destruct (@action_select_after_search AsciiTables.tables loaded (lit "Invoice")
              (Some 0%Z)) as (_ & _ & H).
  destruct (H invoice42 Hsel) as [Hin Hpos].
  split; [exact Hin | exact (Hpos Hq)].
Defined.

Lemma row_selected_by_id_witness :
  NoDup (List.map id loaded)
  /\ In lunch loaded
  /\ id lunch <> []
  /\ on_data_table_row_selected loaded (Some (id lunch)) = Dismiss (Some lunch).
Proof.
  assert (NoDup (List.map id loaded)) as Hnd.
  { repeat constructor; cbn; intros H;
      repeat (destruct H as [H|H]; [discriminate|]); exact H. }
  assert (In lunch loaded) as Hin by (right; left; reflexivity).
  assert (id lunch <> []) as Hne by discriminate.
  split; [exact Hnd|]. split; [exact Hin|]. split; [exact Hne|].
  apply (proj1 (proj2 (row_selected_by_id loaded)) Hnd lunch Hin Hne).
Defined.

Lemma rank_best_first_witness :
  1 <= 50
  /\ In invoice42 loaded
  /\ Forall (fun e => (@_calculate_score AsciiTables.tables (lit "invoice") e
                       <= @_calculate_score AsciiTables.tables (lit "invoice")
                            invoice42)%Z) loaded.
Proof.
  assert (1 <= 50) as Hl by lia.
  split; [exact Hl|].
  apply (proj2 (@rank_best_first AsciiTables.tables (lit "invoice") loaded 50 Hl)
           invoice42 [reminder]).
  vm_compute; reflexivity.
Defined.

Lemma on_input_changed_all_matches_witness :
  @lower AsciiTables.tables (@strip AsciiTables.tables (lit "Invoice")) <> []
  /\ List.length
       (@matches AsciiTables.tables
          (@lower AsciiTables.tables (@strip AsciiTables.tables (lit "Invoice")))
          loaded) <= 50
  /\ Permutation
       (@on_input_changed AsciiTables.tables loaded (lit "Invoice"))
       (@matches AsciiTables.tables
          (@lower AsciiTables.tables (@strip AsciiTables.tables (lit "Invoice")))
          loaded).
Proof.
  assert (@lower AsciiTables.tables (@strip AsciiTables.tables (lit "Invoice")) <> [])
    as Hq by discriminate.
  assert (List.length
            (@matches AsciiTables.tables
               (@lower AsciiTables.tables (@strip AsciiTables.tables (lit "Invoice")))
               loaded) <= 50) as Hfew by (vm_compute; lia).
  split; [exact Hq|]. split; [exact Hfew|].
  apply (@on_input_changed_all_matches AsciiTables.tables loaded (lit "Invoice")
           Hq Hfew).
Defined.

End SearchSelection.
